(** * fignet.collision: the named-object collision scene manager

    A shallow embedding of [src/fignet/collision.py] (class
    [CollisionManager]) and the properties of its registry, its transform
    bookkeeping and its contact resolution.

    Numbers.  The program computes on float64 arrays; the embedding
    computes on binary64 floating-point numbers ([float], IEEE 754
    arithmetic with rounding to nearest).

    Objects.  Python objects that the program mutates in place and shares
    by reference (the [trimesh.Trimesh] meshes and the engine's
    [CollisionObject]s) live in a store indexed by location; dictionaries
    are finite maps.  A method is a function from the world to an outcome
    (a value or an exception) and the world it leaves, so that what a call
    changed before it raised stays visible.

    Libraries.  numpy, trimesh and hppfcl are not part of the repository.
    The class [Libraries] holds the four functions of theirs whose results
    the class depends on: the matrix product, the matrix inverse, the
    in-place transform of a mesh and the bounding box of a collision
    object.  The properties of the first part are proved for every
    implementation of them, so for the installed ones whatever their
    rounding; no algebraic law (associativity, an inverse that cancels) is
    assumed of them.  [Reference] is a textbook implementation in binary64;
    the scenes of the second part are evaluated with it, on inputs for
    which every intermediate result is a small dyadic number or is rounded
    once.  [in_collision] (the engine's query) and the rendering of
    [visualize_contacts] are not modelled. *)

From Stdlib Require Import Floats.
From stdpp Require Import gmap strings list fin_maps.

#[local] Set Warnings "-inexact-float".
Local Open Scope float_scope.

(** ** 4x4 homogeneous transforms *)

Module LinAlg.

Record vec3 := V3 { vx : float; vy : float; vz : float }.

Record mat3 := M3 {
  r00 : float; r01 : float; r02 : float;
  r10 : float; r11 : float; r12 : float;
  r20 : float; r21 : float; r22 : float }.

Record mat4 := M4 {
  m00 : float; m01 : float; m02 : float; m03 : float;
  m10 : float; m11 : float; m12 : float; m13 : float;
  m20 : float; m21 : float; m22 : float; m23 : float;
  m30 : float; m31 : float; m32 : float; m33 : float }.

(** [np.eye(4)] *)
Definition eye4 : mat4 :=
  M4 1 0 0 0
     0 1 0 0
     0 0 1 0
     0 0 0 1.

(** [np.zeros((4, 4))] *)
Definition zeros4 : mat4 :=
  M4 0 0 0 0
     0 0 0 0
     0 0 0 0
     0 0 0 0.

(** [t[:3, :3]] and [t[:3, 3]] *)
Definition rotation_block (t : mat4) : mat3 :=
  M3 (m00 t) (m01 t) (m02 t)
     (m10 t) (m11 t) (m12 t)
     (m20 t) (m21 t) (m22 t).

Definition translation_block (t : mat4) : vec3 :=
  V3 (m03 t) (m13 t) (m23 t).

(** The point [t[:3, :3] p + t[:3, 3]], each coordinate summed from the
    left. *)
Definition transform_point (t : mat4) (p : vec3) : vec3 :=
  V3 (m00 t * vx p + m01 t * vy p + m02 t * vz p + m03 t)
     (m10 t * vx p + m11 t * vy p + m12 t * vz p + m13 t)
     (m20 t * vx p + m21 t * vy p + m22 t * vz p + m23 t).

End LinAlg.

Import LinAlg.

(** ** Python values, exceptions and the object store *)

(** Object identities (what Python's [is] compares). *)
Abbreviation loc := positive.

(** The exceptions that the class and its libraries raise. *)
Inductive exn :=
  | ValueError (msg : string)
  | KeyError (key : string)
  | AssertionError
  | RuntimeWarning (msg : string)
  | ArgumentError          (* Boost.Python: argument types do not match *)
  | LinAlgError.           (* numpy.linalg: singular matrix *)

Inductive result (A : Type) :=
  | Return (a : A)
  | Raise (e : exn).
Arguments Return {A} a.
Arguments Raise {A} e.

(** A numpy array as [add_object] receives it: its [shape] tuple and its
    elements in row-major order. *)
Record ndarray := NdArray { shape : list nat; flat : list float }.

(** [a[i, j]] of a two-dimensional array. *)
Definition item (a : ndarray) (i j : nat) : float :=
  nth (i * nth 1 (shape a) 0%nat + j) (flat a) 0.

(** The (4,4) array with the entries of [t], and back. *)
Definition of_mat4 (t : mat4) : ndarray :=
  NdArray [4; 4]%nat
    [ m00 t; m01 t; m02 t; m03 t;
      m10 t; m11 t; m12 t; m13 t;
      m20 t; m21 t; m22 t; m23 t;
      m30 t; m31 t; m32 t; m33 t ].

Definition to_mat4 (a : ndarray) : mat4 :=
  M4 (item a 0 0) (item a 0 1) (item a 0 2) (item a 0 3)
     (item a 1 0) (item a 1 1) (item a 1 2) (item a 1 3)
     (item a 2 0) (item a 2 1) (item a 2 2) (item a 2 3)
     (item a 3 0) (item a 3 1) (item a 3 2) (item a 3 3).

(** [np.eye(4)] *)
Definition np_eye4 : ndarray := of_mat4 eye4.

(** [trimesh.Trimesh]: vertex array and triangular face index array. *)
Record Trimesh := Mesh {
  vertices : list vec3;
  faces : list (Z * Z * Z) }.

(** [fcl.Transform3f(R, T)] *)
Record Transform3f := Tf {
  getRotation : mat3;
  getTranslation : vec3 }.

(** [fcl.BVHModelOBB] after [endModel]: its identifier ([geom.id()]) and
    the triangle soup it was built from. *)
Record BVHModelOBB := BVH {
  id : positive;
  bvh_vertices : list vec3;
  bvh_triangles : list (Z * Z * Z) }.

(** [fcl.AABB]: an axis-aligned box, by two corners. *)
Record AABB := Box {
  min_ : vec3;
  max_ : vec3 }.

(** [AABB.volume()]: width times height times depth. *)
Definition volume (bv : AABB) : float :=
  (vx (max_ bv) - vx (min_ bv)) * (vy (max_ bv) - vy (min_ bv))
  * (vz (max_ bv) - vz (min_ bv)).

(** [fcl.CollisionObject]: geometry, placement, and the bounding box in
    world coordinates.  The box is computed when the object is
    constructed; [setRotation] and [setTranslation] do not recompute it
    (that is [computeAABB()], which the class never calls). *)
Record CollisionObject := CObj {
  collisionGeometry : BVHModelOBB;
  getTransform : Transform3f;
  getAABB : AABB }.

(** [fcl.DynamicAABBTreeCollisionManager]: the objects registered with the
    tree, in registration order, and the bounding box of each leaf. *)
Record DynamicAABBTreeCollisionManager := Tree {
  getObjects : list loc;
  leaves : gmap loc AABB }.

(** One value of [self._objs]: [{"obj": o, "geom": geom, "mesh": mesh}].
    The collision object and the mesh are references. *)
Record entry := Entry {
  obj : loc;
  geom : BVHModelOBB;
  mesh : loc }.

(** The fields of a [CollisionManager] instance. *)
Record CollisionManager := Self {
  _manager : DynamicAABBTreeCollisionManager;
  _security_margin : float;
  _objs : gmap string entry;
  _applied_transforms : gmap string mat4;
  _names : gmap positive string }.

(** The part of the interpreter state the class reads and writes: the
    meshes its callers hold, the collision objects it creates, the next
    fresh identity, and the manager instance. *)
Record World := Wld {
  meshes : gmap loc Trimesh;
  objects : gmap loc CollisionObject;
  fresh : positive;
  self : CollisionManager }.

(** What the code passes to [unregisterObject]. *)
Inductive pyarg :=
  | PyCollisionObject (o : loc)
  | PyDict (d : entry).

(** ** The libraries, by the functions the class depends on *)

Class Libraries := {
  (** numpy: [a @ b] on two (4,4) arrays *)
  matmul : mat4 → mat4 → mat4;
  (** numpy: [np.linalg.inv(a)], [None] where it raises [LinAlgError] *)
  inv : mat4 → option mat4;
  (** trimesh: the mesh after [mesh.apply_transform(matrix)] *)
  apply_transform : mat4 → Trimesh → Trimesh;
  (** hppfcl: the box that [CollisionObject(geom, t)] computes for itself *)
  computeAABB : BVHModelOBB → Transform3f → AABB }.

Infix "@@" := matmul (at level 40, left associativity).

(** *** Statements: a state monad with exceptions *)

Definition Py (A : Type) : Type := World → result A * World.

Definition ret {A} (a : A) : Py A := λ w, (Return a, w).
Definition raise {A} (e : exn) : Py A := λ w, (Raise e, w).
Definition bind {A B} (c : Py A) (k : A → Py B) : Py B :=
  λ w, match c w with
       | (Return a, w') => k a w'
       | (Raise e, w') => (Raise e, w')
       end.
Definition gets {A} (f : World → A) : Py A := λ w, (Return (f w), w).
Definition modify (f : World → World) : Py unit := λ w, (Return tt, f w).

Declare Scope py_scope.
Delimit Scope py_scope with py.
Notation "x <- c1 ;; c2" := (bind c1 (λ x, c2))
  (at level 100, c1 at next level, right associativity) : py_scope.
Notation "c1 ;; c2" := (bind c1 (λ _, c2))
  (at level 100, right associativity) : py_scope.
Local Open Scope py_scope.

(** Field updates. *)
Definition with_self (f : CollisionManager → CollisionManager) (w : World) : World :=
  Wld (meshes w) (objects w) (fresh w) (f (self w)).
Definition with_meshes (f : gmap loc Trimesh → gmap loc Trimesh) (w : World) : World :=
  Wld (f (meshes w)) (objects w) (fresh w) (self w).
Definition with_objects (f : gmap loc CollisionObject → gmap loc CollisionObject)
    (w : World) : World :=
  Wld (meshes w) (f (objects w)) (fresh w) (self w).
Definition with_manager
    (f : DynamicAABBTreeCollisionManager → DynamicAABBTreeCollisionManager)
    (s : CollisionManager) : CollisionManager :=
  Self (f (_manager s)) (_security_margin s) (_objs s) (_applied_transforms s) (_names s).
Definition with_objs (f : gmap string entry → gmap string entry)
    (s : CollisionManager) : CollisionManager :=
  Self (_manager s) (_security_margin s) (f (_objs s)) (_applied_transforms s) (_names s).
Definition with_applied_transforms (f : gmap string mat4 → gmap string mat4)
    (s : CollisionManager) : CollisionManager :=
  Self (_manager s) (_security_margin s) (_objs s) (f (_applied_transforms s)) (_names s).
Definition with_names (f : gmap positive string → gmap positive string)
    (s : CollisionManager) : CollisionManager :=
  Self (_manager s) (_security_margin s) (_objs s) (_applied_transforms s) (f (_names s)).

(** ** The engine and the two array libraries, as the class calls them *)

(** The [ValueError] that the engine's [update()] raises for a leaf whose
    box has no volume (hppfcl throws [std::invalid_argument], which the
    binding turns into [ValueError]; the message is hppfcl's, without the
    file and line it is prefixed with). *)
Definition bounding_volume_error : exn :=
  ValueError "The bounding volume has a negative volume.".

(** The test of [update()] on a leaf: [bv.volume() <= 0]. *)
Definition no_volume (c : CollisionObject) : bool :=
  volume (getAABB c) <=? 0.

(** The leaf of [o] is set to the box of the object. *)
Definition refresh (objs : gmap loc CollisionObject) (o : loc)
    (lv : gmap loc AABB) : gmap loc AABB :=
  match objs !! o with
  | Some c => <[o := getAABB c]> lv
  | None => lv
  end.

(** The loop of [manager.update()] over the registered objects: the leaf
    is set to the box of its object, and a box without volume raises.  The
    engine visits the objects in the order of its hash table; here they
    are visited in registration order. *)
Fixpoint update_leaves (objs : gmap loc CollisionObject) (l : list loc)
    (lv : gmap loc AABB) : result unit * gmap loc AABB :=
  match l with
  | [] => (Return tt, lv)
  | o :: l =>
      match objs !! o with
      | Some c =>
          if no_volume c
          then (Raise bounding_volume_error, refresh objs o lv)
          else update_leaves objs l (refresh objs o lv)
      | None => update_leaves objs l lv
      end
  end.

Section Engine.

Context {L : Libraries}.

(** hppfcl is bound through Boost.Python, which rejects a call whose
    argument is not of the declared C++ type with [ArgumentError]:
    [binding_typechecks = true].  With [false] the binding lets such a
    call through and the tree, which holds no such object, is left as it
    is.  Everything below is stated for both. *)
Variable binding_typechecks : bool.

(** Allocation of a new Python object: a fresh identity. *)
Definition new_id : Py positive :=
  λ w, (Return (fresh w),
        Wld (meshes w) (objects w) (Pos.succ (fresh w)) (self w)).

(** [geom = fcl.BVHModelOBB(); geom.beginModel(..); geom.addSubModel(verts,
    faces); geom.endModel()] *)
Definition new_BVHModelOBB (verts : list vec3) (tris : list (Z * Z * Z))
    : Py BVHModelOBB :=
  i <- new_id ;;
  ret (BVH i verts tris).

(** The object that [fcl.CollisionObject(geom, t)] constructs. *)
Definition collision_object (g : BVHModelOBB) (t : Transform3f) : CollisionObject :=
  CObj g t (computeAABB g t).

(** [fcl.CollisionObject(geom, t)] *)
Definition new_CollisionObject (g : BVHModelOBB) (t : Transform3f) : Py loc :=
  o <- new_id ;;
  modify (with_objects <[o := collision_object g t]>) ;;
  ret o.

(** [o.setRotation(R)], [o.setTranslation(T)]: the box stays. *)
Definition setRotation (o : loc) (R : mat3) : Py unit :=
  modify (with_objects
    (alter (λ c, CObj (collisionGeometry c) (Tf R (getTranslation (getTransform c)))
                   (getAABB c)) o)).

Definition setTranslation (o : loc) (T : vec3) : Py unit :=
  modify (with_objects
    (alter (λ c, CObj (collisionGeometry c) (Tf (getRotation (getTransform c)) T)
                   (getAABB c)) o)).

(** [manager.registerObject(o)] *)
Definition registerObject (o : loc) : Py unit :=
  objs <- gets objects ;;
  modify (with_self (with_manager
    (λ m, Tree (getObjects m ++ [o]) (refresh objs o (leaves m))))).

(** [manager.unregisterObject(arg)] *)
Definition unregisterObject (arg : pyarg) : Py unit :=
  match arg with
  | PyCollisionObject o =>
      modify (with_self (with_manager
        (λ m, Tree (filter (λ x, x ≠ o) (getObjects m)) (delete o (leaves m)))))
  | PyDict _ =>
      if binding_typechecks then raise ArgumentError else ret tt
  end.

(** [manager.update()] *)
Definition update_all : Py unit :=
  λ w,
    let m := _manager (self w) in
    let r := update_leaves (objects w) (getObjects m) (leaves m) in
    (fst r, with_self (with_manager (λ m, Tree (getObjects m) (snd r))) w).

(** [manager.update(o)]: the leaf of [o] is set to the box of [o], if [o]
    is registered. *)
Definition update (o : loc) : Py unit :=
  objs <- gets objects ;;
  modify (with_self (with_manager
    (λ m, if bool_decide (o ∈ getObjects m)
          then Tree (getObjects m) (refresh objs o (leaves m))
          else m))).

(** [mesh.apply_transform(matrix)], on the mesh object itself. *)
Definition mesh_apply_transform (mesh : loc) (matrix : mat4) : Py unit :=
  modify (with_meshes (alter (apply_transform matrix) mesh)).

(** [np.linalg.inv(a)] *)
Definition np_linalg_inv (a : mat4) : Py mat4 :=
  match inv a with
  | Some b => ret b
  | None => raise LinAlgError
  end.

(** ** class CollisionManager *)

(** [__init__]: an empty tree and empty dictionaries. *)
Definition __init__ (security_margin : float) : CollisionManager :=
  Self (Tree [] ∅) security_margin ∅ ∅ ∅.

(** [get_objects]: the dictionary of the meshes themselves. *)
Definition get_objects : Py (gmap string loc) :=
  objs <- gets (λ w, _objs (self w)) ;;
  ret (mesh <$> objs).

(** [get_object]: a copy of the mesh, or [None]. *)
Definition get_object (name : string) : Py (option Trimesh) :=
  objs <- gets (λ w, _objs (self w)) ;;
  match objs !! name with
  | Some e => ms <- gets meshes ;; ret (ms !! mesh e)
  | None => ret None
  end.

Definition add_object (name : string) (mesh : loc) (transform : option ndarray)
    : Py unit :=
  ms <- gets meshes ;;
  let verts := default [] (vertices <$> ms !! mesh) in
  let faces := default [] (faces <$> ms !! mesh) in
  let transform := default np_eye4 transform in
  if bool_decide (shape transform ≠ [4; 4]%nat)
  then raise (ValueError "transform must be (4,4)!")
  else
    geom <- new_BVHModelOBB verts faces ;;
    let t := Tf (rotation_block (to_mat4 transform))
                (translation_block (to_mat4 transform)) in
    o <- new_CollisionObject geom t ;;
    objs <- gets (λ w, _objs (self w)) ;;
    match objs !! name with
    | Some d => unregisterObject (PyDict d)
    | None => ret tt
    end ;;
    modify (with_self (with_objs <[name := Entry o geom mesh]>)) ;;
    modify (with_self (with_names <[id geom := name]>)) ;;
    registerObject o ;;
    update_all.

Definition set_transform (name : string) (transform : mat4) (relative : bool)
    : Py unit :=
  objs <- gets (λ w, _objs (self w)) ;;
  match objs !! name with
  | Some e =>
      t <- (if relative
            then
              applied <- gets (λ w, _applied_transforms (self w)) ;;
              match applied !! name with
              | Some prev_t => ret (transform @@ prev_t)
              | None => raise (KeyError name)
              end
            else ret transform) ;;
      let o := obj e in
      setRotation o (rotation_block t) ;;
      setTranslation o (translation_block t) ;;
      update o ;;
      let mesh := mesh e in
      applied <- gets (λ w, _applied_transforms (self w)) ;;
      match applied !! name with
      | Some prev =>
          i <- np_linalg_inv prev ;;
          mesh_apply_transform mesh i
      | None => ret tt
      end ;;
      mesh_apply_transform mesh t ;;
      modify (with_self (with_applied_transforms <[name := t]>))
  | None => raise (ValueError (name +:+ " not in collision manager!"))
  end.

Definition get_transform (name : string) : Py mat4 :=
  objs <- gets (λ w, _objs (self w)) ;;
  match objs !! name with
  | Some _ =>
      applied <- gets (λ w, _applied_transforms (self w)) ;;
      match applied !! name with
      | Some t => ret t
      | None => raise (KeyError name)
      end
  | None => raise (ValueError (name +:+ " not in collision manager!"))
  end.

End Engine.

(** ** Contact resolution *)

(** [fcl.Contact]: the two geometries, the two triangle indices, position,
    normal, penetration depth and the two nearest points. *)
Record Contact := Ct {
  o1 : BVHModelOBB;
  o2 : BVHModelOBB;
  b1 : Z;
  b2 : Z;
  pos : vec3;
  normal : vec3;
  penetration_depth : float;
  getNearestPoint1 : vec3;
  getNearestPoint2 : vec3 }.

(** Keys and values of the dictionary that [get_collision_pairs] returns. *)
Abbreviation pair_key := (string * string * Z * Z)%type.
Abbreviation pair_points := (vec3 * vec3)%type.

(** [_extract_name]: [self._names.get(geom.id())]; [.get] on a
    [defaultdict] does not call the default factory, a missing identifier
    gives [None]. *)
Definition _extract_name (s : CollisionManager) (g : BVHModelOBB) : option string :=
  _names s !! id g.

(** The body of the [for contact in contacts] loop of
    [get_collision_pairs], with the dictionary built so far.  The [assert]
    statements are executed (the interpreter runs without [-O]). *)
Fixpoint resolve_contacts (s : CollisionManager) (bidirectional : bool)
    (contacts : list Contact) (contact_pairs : gmap pair_key pair_points)
    : result (gmap pair_key pair_points) :=
  match contacts with
  | [] => Return contact_pairs
  | contact :: rest =>
      let point1 := getNearestPoint1 contact in
      let point2 := getNearestPoint2 contact in
      match _extract_name s (o1 contact), _extract_name s (o2 contact) with
      | None, _ => Raise AssertionError
      | Some _, None => Raise AssertionError
      | Some name1, Some name2 =>
          if bool_decide (is_Some (contact_pairs !! (name1, name2, b1 contact, b2 contact)))
          then Raise (RuntimeWarning "conflicting contact pairs!")
          else
            let contact_pairs :=
              <[(name1, name2, b1 contact, b2 contact) := (point1, point2)]> contact_pairs in
            let contact_pairs :=
              if bidirectional
              then <[(name2, name1, b2 contact, b1 contact) := (point2, point1)]> contact_pairs
              else contact_pairs in
            resolve_contacts s bidirectional rest contact_pairs
      end
  end.

Definition get_collision_pairs (contacts : list Contact) (bidirectional : bool)
    : Py (gmap pair_key pair_points) :=
  λ w, (resolve_contacts (self w) bidirectional contacts ∅, w).

(** The key a contact is stored under, when both geometries resolve. *)
Definition contact_key (s : CollisionManager) (c : Contact) : option pair_key :=
  match _extract_name s (o1 c), _extract_name s (o2 c) with
  | Some name1, Some name2 => Some (name1, name2, b1 c, b2 c)
  | _, _ => None
  end.

Definition mirror (k : pair_key) : pair_key :=
  match k with (nameA, nameB, i, j) => (nameB, nameA, j, i) end.

(** ** Call sequences *)

(** The public calls that change or read the scene. *)
Inductive call :=
  | AddObject (name : string) (mesh : loc) (transform : option ndarray)
  | SetTransform (name : string) (transform : mat4) (relative : bool)
  | GetTransform (name : string)
  | GetObject (name : string)
  | GetObjects
  | GetCollisionPairs (contacts : list Contact) (bidirectional : bool).

(** The world after a call, whether it returned or raised (the caller may
    catch the exception and go on). *)
Definition after {L : Libraries} (binding_typechecks : bool) (c : call) (w : World)
    : World :=
  match c with
  | AddObject name mesh transform =>
      snd (add_object binding_typechecks name mesh transform w)
  | SetTransform name transform relative => snd (set_transform name transform relative w)
  | GetTransform name => snd (get_transform name w)
  | GetObject name => snd (get_object name w)
  | GetObjects => snd (get_objects w)
  | GetCollisionPairs contacts bidirectional =>
      snd (get_collision_pairs contacts bidirectional w)
  end.

Definition run {L : Libraries} (binding_typechecks : bool) (calls : list call)
    (w : World) : World :=
  foldl (λ w c, after binding_typechecks c w) w calls.

(** A new manager, in a program that holds the meshes [ms]. *)
Definition start (ms : gmap loc Trimesh) (security_margin : float) : World :=
  Wld ms ∅ 1%positive (__init__ security_margin).

(** *** The steps of [set_transform] and [add_object], named *)

(** The absolute pose that [set_transform] computes, or [None] where the
    relative branch finds no previous transform ([KeyError]). *)
Definition new_pose {L : Libraries} (applied : gmap string mat4) (name : string)
    (transform : mat4) (relative : bool) : option mat4 :=
  if relative then (λ prev_t, transform @@ prev_t) <$> applied !! name
  else Some transform.

(** The object [c] with its rotation and translation set from [t]. *)
Definition place_at (t : mat4) (c : CollisionObject) : CollisionObject :=
  CObj (collisionGeometry c) (Tf (rotation_block t) (translation_block t))
    (getAABB c).

(** The world after [o.setRotation(t[:3, :3]); o.setTranslation(t[:3, 3]);
    self._manager.update(o)]. *)
Definition placed (o : loc) (t : mat4) (w : World) : World :=
  snd ((setRotation o (rotation_block t) ;;
        setTranslation o (translation_block t) ;;
        update o) w).

(** The world after the geometry and the collision object of [add_object]
    have been built, before the dictionaries and the tree are touched. *)
Definition built {L : Libraries} (mesh : loc) (transform : ndarray) (w : World)
    : World :=
  let verts := default [] (vertices <$> meshes w !! mesh) in
  let faces := default [] (faces <$> meshes w !! mesh) in
  let t := Tf (rotation_block (to_mat4 transform))
              (translation_block (to_mat4 transform)) in
  Wld (meshes w)
      (<[Pos.succ (fresh w) := collision_object (BVH (fresh w) verts faces) t]>
         (objects w))
      (Pos.succ (Pos.succ (fresh w)))
      (self w).

(** The entry that [add_object] stores. *)
Definition new_entry (mesh : loc) (w : World) : entry :=
  Entry (Pos.succ (fresh w))
        (BVH (fresh w) (default [] (vertices <$> meshes w !! mesh))
                       (default [] (faces <$> meshes w !! mesh)))
        mesh.

(** The last four statements of [add_object], and the world after them,
    from the world [w1] in which the objects are built. *)
Definition store (name : string) (e : entry) : Py unit :=
  modify (with_self (with_objs <[name := e]>)) ;;
  modify (with_self (with_names <[id (geom e) := name]>)) ;;
  registerObject (obj e) ;;
  update_all.

Definition stored (name : string) (e : entry) (w1 : World) : World :=
  snd (store name e w1).

(** [update()] raises in the world [w]: a registered object has a box
    without volume. *)
Definition update_rejects (w : World) : bool :=
  existsb (λ o, from_option no_volume false (objects w !! o))
    (getObjects (_manager (self w))).

(** ** The properties under study *)

(** The error for an unregistered name. *)
Definition not_in_manager (name : string) : exn :=
  ValueError (name +:+ " not in collision manager!").

(** The validation error of [add_object]. *)
Definition not_4x4 : exn := ValueError "transform must be (4,4)!".

(** The two errors of the resolver; the specification files both under
    its consistency errors. *)
Definition consistency_error (e : exn) : Prop :=
  e = AssertionError ∨ e = RuntimeWarning "conflicting contact pairs!".

(** The three records of one pose agree: the engine object is placed at
    the stored transform, and the mesh holds the vertices the shape was
    built from, moved by it. *)
Definition in_sync (w : World) (name : string) : Prop :=
  ∃ e c m t,
    _objs (self w) !! name = Some e ∧
    objects w !! obj e = Some c ∧
    meshes w !! mesh e = Some m ∧
    _applied_transforms (self w) !! name = Some t ∧
    getTransform c = Tf (rotation_block t) (translation_block t) ∧
    vertices m = transform_point t <$> bvh_vertices (geom e).

Definition vsum (ps : list vec3) : vec3 :=
  foldr (λ p acc, V3 (vx p + vx acc) (vy p + vy acc) (vz p + vz acc)) (V3 0 0 0) ps.

(** [vertices.mean(axis=0)] *)
Definition centroid (ps : list vec3) : vec3 :=
  let n := PrimFloat.of_uint63 (Uint63.of_Z (Z.of_nat (length ps))) in
  let s := vsum ps in
  V3 (vx s / n) (vy s / n) (vz s / n).

(** Every key has its mirrored key, with the points swapped. *)
Definition mirrored (d : gmap pair_key pair_points) : Prop :=
  ∀ k pA pB, d !! k = Some (pA, pB) → d !! mirror k = Some (pB, pA).

(** The mirroring that the bidirectional loop keeps: the mirrored key is
    in the dictionary, and holds the swapped points when it is another key. *)
Definition mirrored_apart (d : gmap pair_key pair_points) : Prop :=
  ∀ k pA pB, d !! k = Some (pA, pB) →
    is_Some (d !! mirror k) ∧ (k ≠ mirror k → d !! mirror k = Some (pB, pA)).

(** The bookkeeping that ties the dictionaries, the tree and the store
    together. *)
Record bookkept (w : World) : Prop := Bookkept {
  (* a stored transform belongs to a registered name *)
  bk_applied : ∀ n,
    is_Some (_applied_transforms (self w) !! n) → is_Some (_objs (self w) !! n);
  (* a recorded identifier was handed out, for a registered name *)
  bk_names : ∀ i n,
    _names (self w) !! i = Some n →
    is_Some (_objs (self w) !! n) ∧ (i < fresh w)%positive;
  (* the geometry of a registered name resolves to the name *)
  bk_resolve : ∀ n e,
    _objs (self w) !! n = Some e → _names (self w) !! id (geom e) = Some n;
  (* the collision object of a registered name is in the tree and in the
     store, with the geometry of the entry *)
  bk_tree : ∀ n e,
    _objs (self w) !! n = Some e →
    obj e ∈ getObjects (_manager (self w)) ∧ (obj e < fresh w)%positive ∧
    ∃ c, objects w !! obj e = Some c ∧ collisionGeometry c = geom e }.

(** ** [visualize_contacts]: the data collected for the renderer *)

(** The outcome of code whose only failure is a dictionary lookup:
    [KeyError(key)], the key being a name or [None]. *)
Inductive lookup_result (A : Type) :=
  | Found (a : A)
  | KeyErrorAt (key : option string).
Arguments Found {A} a.
Arguments KeyErrorAt {A} key.

(** The local variables of [visualize_contacts] after its loop over the
    contacts. *)
Record contact_view := View {
  faces_in_collision : gmap string (list Z);
  pts : list vec3;
  ray_origins : list vec3;
  ray_directions : list vec3 }.

(** [if b not in l: l.append(b)] *)
Definition add_face (b : Z) (l : list Z) : list Z :=
  if bool_decide (b ∈ l) then l else l ++ [b].

(** [if b not in faces_in_collision[name]:
         faces_in_collision[name].append(b)],
    [name] being what [_extract_name] returned. *)
Definition mark_face (name : option string) (b : Z) (f : gmap string (list Z))
    : lookup_result (gmap string (list Z)) :=
  match name with
  | None => KeyErrorAt None
  | Some n =>
      match f !! n with
      | None => KeyErrorAt (Some n)
      | Some l => Found (if bool_decide (b ∈ l) then f else <[n := l ++ [b]]> f)
      end
  end.

(** The loop [for contact in contacts] of [visualize_contacts]. *)
Fixpoint view_contacts (s : CollisionManager) (contacts : list Contact)
    (v : contact_view) : lookup_result contact_view :=
  match contacts with
  | [] => Found v
  | contact :: rest =>
      let names := (_extract_name s (o1 contact), _extract_name s (o2 contact)) in
      match mark_face (fst names) (b1 contact) (faces_in_collision v) with
      | KeyErrorAt k => KeyErrorAt k
      | Found f1 =>
          match mark_face (snd names) (b2 contact) f1 with
          | KeyErrorAt k => KeyErrorAt k
          | Found f2 =>
              let point1 := getNearestPoint1 contact in
              let point2 := getNearestPoint2 contact in
              view_contacts s rest
                (View f2 (pts v ++ [point1; point2])
                   (ray_origins v ++ [pos contact])
                   (ray_directions v ++ [normal contact]))
          end
      end
  end.

(** [visualize_contacts] up to the construction of the scene: an empty
    list of faces for every registered name, then the loop.  The copies of
    the meshes, their face colours and the rendering are trimesh's and are
    not modelled. *)
Definition visualize_contacts_data (contacts : list Contact) (w : World)
    : lookup_result contact_view :=
  view_contacts (self w) contacts
    (View ((λ _, []) <$> _objs (self w)) [] [] []).

(** Triangle [b] of the object named [n] takes part in contact [c]. *)
Definition involves (s : CollisionManager) (n : string) (c : Contact) (b : Z)
    : Prop :=
  _extract_name s (o1 c) = Some n ∧ b1 c = b ∨
  _extract_name s (o2 c) = Some n ∧ b2 c = b.

(** What one contact does to the list of faces of the name [n]. *)
Definition touch (s : CollisionManager) (n : string) (c : Contact)
    (l : list Z) : list Z :=
  let l1 := if bool_decide (_extract_name s (o1 c) = Some n)
            then add_face (b1 c) l else l in
  if bool_decide (_extract_name s (o2 c) = Some n)
  then add_face (b2 c) l1 else l1.

(** ** A reference implementation of the libraries, in binary64 *)

Module Reference.

(** [a @ b]: every entry is a row times a column, summed from the left. *)
Definition matmul (a b : mat4) : mat4 :=
  M4 (m00 a * m00 b + m01 a * m10 b + m02 a * m20 b + m03 a * m30 b)
     (m00 a * m01 b + m01 a * m11 b + m02 a * m21 b + m03 a * m31 b)
     (m00 a * m02 b + m01 a * m12 b + m02 a * m22 b + m03 a * m32 b)
     (m00 a * m03 b + m01 a * m13 b + m02 a * m23 b + m03 a * m33 b)
     (m10 a * m00 b + m11 a * m10 b + m12 a * m20 b + m13 a * m30 b)
     (m10 a * m01 b + m11 a * m11 b + m12 a * m21 b + m13 a * m31 b)
     (m10 a * m02 b + m11 a * m12 b + m12 a * m22 b + m13 a * m32 b)
     (m10 a * m03 b + m11 a * m13 b + m12 a * m23 b + m13 a * m33 b)
     (m20 a * m00 b + m21 a * m10 b + m22 a * m20 b + m23 a * m30 b)
     (m20 a * m01 b + m21 a * m11 b + m22 a * m21 b + m23 a * m31 b)
     (m20 a * m02 b + m21 a * m12 b + m22 a * m22 b + m23 a * m32 b)
     (m20 a * m03 b + m21 a * m13 b + m22 a * m23 b + m23 a * m33 b)
     (m30 a * m00 b + m31 a * m10 b + m32 a * m20 b + m33 a * m30 b)
     (m30 a * m01 b + m31 a * m11 b + m32 a * m21 b + m33 a * m31 b)
     (m30 a * m02 b + m31 a * m12 b + m32 a * m22 b + m33 a * m32 b)
     (m30 a * m03 b + m31 a * m13 b + m32 a * m23 b + m33 a * m33 b).

(** *** The inverse: elimination with partial pivoting

    The rows of [(a | I)] are reduced column by column.  The pivot of a
    column is the remaining row with the entry of largest magnitude, the
    first of them among equals.  The result is [None] when a pivot is
    exactly zero, which is when LAPACK reports the matrix as singular and
    numpy raises [LinAlgError]; a matrix whose determinant is zero but
    whose pivots are not, after rounding, has an inverse here as it has
    in numpy. *)

Definition row := list float.

Definition entry_at (j : nat) (r : row) : float := nth j r 0.

(** [y - k x] *)
Definition axpy (k : float) (x y : row) : row :=
  zip_with (λ a b, b - k * a) x y.

(** The pivot row for column [j], and the other rows in their order. *)
Fixpoint pick (j : nat) (rows : list row) : option (row * list row) :=
  match rows with
  | [] => None
  | r :: rest =>
      match pick j rest with
      | Some (best, others) =>
          if abs (entry_at j best) <=? abs (entry_at j r)
          then Some (r, rest)
          else Some (best, r :: others)
      | None => Some (r, rest)
      end
  end.

Fixpoint eliminate (cols : list nat) (done todo : list row) : option (list row) :=
  match cols with
  | [] => Some done
  | j :: cols =>
      match pick j todo with
      | None => None
      | Some (p, todo) =>
          let d := entry_at j p in
          if d =? 0 then None
          else
            let clear r := axpy (entry_at j r / d) p r in
            eliminate cols ((clear <$> done) ++ [p]) (clear <$> todo)
      end
  end.

Definition rows_of (a : mat4) : list row :=
  [ [m00 a; m01 a; m02 a; m03 a; 1; 0; 0; 0];
    [m10 a; m11 a; m12 a; m13 a; 0; 1; 0; 0];
    [m20 a; m21 a; m22 a; m23 a; 0; 0; 1; 0];
    [m30 a; m31 a; m32 a; m33 a; 0; 0; 0; 1] ].

Definition inv (a : mat4) : option mat4 :=
  match eliminate [0; 1; 2; 3]%nat [] (rows_of a) with
  | Some [x; y; z; u] =>
      let e (i j : nat) (r : row) := entry_at (4 + j) r / entry_at i r in
      Some (M4 (e 0 0 x) (e 0 1 x) (e 0 2 x) (e 0 3 x)
               (e 1 0 y) (e 1 1 y) (e 1 2 y) (e 1 3 y)
               (e 2 0 z) (e 2 1 z) (e 2 2 z) (e 2 3 z)
               (e 3 0 u) (e 3 1 u) (e 3 2 u) (e 3 3 u))%nat
  | _ => None
  end.

(** *** [Trimesh.apply_transform] *)

Definition close (tol a b : float) : bool := abs (a - b) <? tol.

(** trimesh returns at once for a matrix within [1e-8] of the identity. *)
Definition is_identity (t : mat4) : bool :=
  close 1e-8 (m00 t) 1 && close 1e-8 (m01 t) 0 && close 1e-8 (m02 t) 0
  && close 1e-8 (m03 t) 0
  && close 1e-8 (m10 t) 0 && close 1e-8 (m11 t) 1 && close 1e-8 (m12 t) 0
  && close 1e-8 (m13 t) 0
  && close 1e-8 (m20 t) 0 && close 1e-8 (m21 t) 0 && close 1e-8 (m22 t) 1
  && close 1e-8 (m23 t) 0
  && close 1e-8 (m30 t) 0 && close 1e-8 (m31 t) 0 && close 1e-8 (m32 t) 0
  && close 1e-8 (m33 t) 1.

Definition has_rotation (t : mat4) : bool :=
  negb (close 1e-6 (m00 t) 1 && close 1e-6 (m01 t) 0 && close 1e-6 (m02 t) 0
        && close 1e-6 (m10 t) 0 && close 1e-6 (m11 t) 1 && close 1e-6 (m12 t) 0
        && close 1e-6 (m20 t) 0 && close 1e-6 (m21 t) 0 && close 1e-6 (m22 t) 1).

(** The linear part reverses orientation (trimesh tests this on sample
    triangles). *)
Definition flips_winding (t : mat4) : bool :=
  m00 t * (m11 t * m22 t - m12 t * m21 t)
  - m01 t * (m10 t * m22 t - m12 t * m20 t)
  + m02 t * (m10 t * m21 t - m11 t * m20 t) <? 0.

(** The vertices are mapped; the faces are reversed when the matrix flips
    the winding. *)
Definition apply_transform (matrix : mat4) (mesh : Trimesh) : Trimesh :=
  if is_identity matrix then mesh
  else
    Mesh (transform_point matrix <$> vertices mesh)
         (if has_rotation matrix && flips_winding matrix
          then (λ f, match f with (a, b, c) => (c, b, a) end) <$> faces mesh
          else faces mesh).

(** *** [CollisionObject.computeAABB] *)

Definition fmin (a b : float) : float := if b <? a then b else a.
Definition fmax (a b : float) : float := if a <? b then b else a.

(** The box of the vertices in the frame of the geometry. *)
Definition aabb_local (vs : list vec3) : AABB :=
  foldl (λ bv v,
           Box (V3 (fmin (vx (min_ bv)) (vx v)) (fmin (vy (min_ bv)) (vy v))
                   (fmin (vz (min_ bv)) (vz v)))
               (V3 (fmax (vx (max_ bv)) (vx v)) (fmax (vy (max_ bv)) (vy v))
                   (fmax (vz (max_ bv)) (vz v))))
        (Box (V3 infinity infinity infinity)
             (V3 neg_infinity neg_infinity neg_infinity))
        vs.

(** Eigen's [isIdentity()] with the default precision of [double]. *)
Definition is_identity3 (R : mat3) : bool :=
  let one a := abs (a - 1) <=? fmin (abs a) 1 * 1e-12 in
  let zero a := abs a <=? 1e-12 in
  one (r00 R) && zero (r01 R) && zero (r02 R)
  && zero (r10 R) && one (r11 R) && zero (r12 R)
  && zero (r20 R) && zero (r21 R) && one (r22 R).

(** The local box is translated when the rotation is the identity;
    otherwise the box of the rotated local box is taken. *)
Definition computeAABB (g : BVHModelOBB) (t : Transform3f) : AABB :=
  let bv := aabb_local (bvh_vertices g) in
  let R := getRotation t in
  let T := getTranslation t in
  if is_identity3 R
  then Box (V3 (vx (min_ bv) + vx T) (vy (min_ bv) + vy T) (vz (min_ bv) + vz T))
           (V3 (vx (max_ bv) + vx T) (vy (max_ bv) + vy T) (vz (max_ bv) + vz T))
  else
    let lo (a b c x : float) :=
      x + fmin (a * vx (min_ bv)) (a * vx (max_ bv))
        + fmin (b * vy (min_ bv)) (b * vy (max_ bv))
        + fmin (c * vz (min_ bv)) (c * vz (max_ bv)) in
    let hi (a b c x : float) :=
      x + fmax (a * vx (min_ bv)) (a * vx (max_ bv))
        + fmax (b * vy (min_ bv)) (b * vy (max_ bv))
        + fmax (c * vz (min_ bv)) (c * vz (max_ bv)) in
    Box (V3 (lo (r00 R) (r01 R) (r02 R) (vx T)) (lo (r10 R) (r11 R) (r12 R) (vy T))
            (lo (r20 R) (r21 R) (r22 R) (vz T)))
        (V3 (hi (r00 R) (r01 R) (r02 R) (vx T)) (hi (r10 R) (r11 R) (r12 R) (vy T))
            (hi (r20 R) (r21 R) (r22 R) (vz T))).

End Reference.

#[export] Instance binary64 : Libraries := {|
  matmul := Reference.matmul;
  inv := Reference.inv;
  apply_transform := Reference.apply_transform;
  computeAABB := Reference.computeAABB |}.

(** ** Small scenes *)

(** Translation by [(x, y, z)]. *)
Definition translation (x y z : float) : mat4 :=
  M4 1 0 0 x
     0 1 0 y
     0 0 1 z
     0 0 0 1.

(** A tetrahedron, used as a small mesh, and the same scaled by a tenth. *)
Definition tetrahedron : Trimesh :=
  Mesh [V3 0 0 0; V3 1 0 0; V3 0 1 0; V3 0 0 1]
       [(0, 2, 1); (0, 1, 3); (0, 3, 2); (1, 2, 3)]%Z.

Definition tenth : float := 1 / 10.

Definition small_tetrahedron : Trimesh :=
  Mesh [V3 0 0 0; V3 tenth 0 0; V3 0 tenth 0; V3 0 0 tenth]
       [(0, 2, 1); (0, 1, 3); (0, 3, 2); (1, 2, 3)]%Z.

(** A single triangle: a mesh that lies in a plane. *)
Definition triangle : Trimesh :=
  Mesh [V3 0 0 0; V3 1 0 0; V3 0 1 0] [(0, 1, 2)%Z].

(** One tetrahedron held by the caller at location 1, registered as
    ["a"] with the transform omitted. *)
Definition scene_a {L : Libraries} (binding_typechecks : bool) : World :=
  snd (add_object binding_typechecks "a" 1%positive None
         (start {[1%positive := tetrahedron]} 0)).

(** The same scene after ["a"] was lifted by one unit. *)
Definition scene_lifted {L : Libraries} (binding_typechecks : bool) : World :=
  snd (set_transform "a" (translation 0 0 1) false (scene_a binding_typechecks)).

(** The geometry that [add_object] built for ["a"] in [scene_a]. *)
Definition geom_a : BVHModelOBB :=
  BVH 1%positive (vertices tetrahedron) (faces tetrahedron).

(** A geometry that was never registered. *)
Definition geom_unknown : BVHModelOBB :=
  BVH 9%positive (vertices tetrahedron) (faces tetrahedron).

(** A contact of triangle [i] of [g1] with triangle [j] of [g2], nearest
    points [p1] and [p2]. *)
Definition contact_of (g1 g2 : BVHModelOBB) (i j : Z) (p1 p2 : vec3) : Contact :=
  Ct g1 g2 i j p1 (V3 0 0 1) 0 p1 p2.

(** The same scene after ["a"] was given the zero matrix as transform. *)
Definition scene_flat {L : Libraries} (binding_typechecks : bool) : World :=
  snd (set_transform "a" zeros4 false (scene_a binding_typechecks)).

(** A scene in which the names ["a"] and ["b"] were registered with the
    same mesh object. *)
Definition scene_shared {L : Libraries} (binding_typechecks : bool) : World :=
  run binding_typechecks
    [AddObject "a" 1%positive None; AddObject "b" 1%positive None]
    (start {[1%positive := tetrahedron]} 0).

(** A scene with two objects, each with a mesh of its own. *)
Definition scene_ab {L : Libraries} (binding_typechecks : bool) : World :=
  run binding_typechecks
    [AddObject "a" 1%positive None; AddObject "b" 2%positive None]
    (start {[1%positive := tetrahedron; 2%positive := tetrahedron]} 0).

(** The small tetrahedron, registered as ["a"]. *)
Definition scene_small {L : Libraries} (binding_typechecks : bool) : World :=
  snd (add_object binding_typechecks "a" 1%positive None
         (start {[1%positive := small_tetrahedron]} 0)).

(** * Properties, for every implementation of the libraries *)

Section General.

Context {L : Libraries}.

(** ** Frame conditions of the three methods *)

Ltac py_unfold :=
  unfold new_CollisionObject, new_BVHModelOBB, new_id, registerObject,
    unregisterObject, update, setRotation, setTranslation,
    mesh_apply_transform, np_linalg_inv, bind, ret, raise, gets, modify in *.

Lemma set_transform_unregistered name t relative w :
  _objs (self w) !! name = None →
  set_transform name t relative w = (Raise (not_in_manager name), w).
Proof. intros H. unfold set_transform, bind, gets. cbn. by rewrite H. Qed.

Lemma get_transform_unregistered name w :
  _objs (self w) !! name = None →
  get_transform name w = (Raise (not_in_manager name), w).
Proof. intros H. unfold get_transform, bind, gets. cbn. by rewrite H. Qed.

Lemma get_transform_world name w : snd (get_transform name w) = w.
Proof.
  unfold get_transform, bind, gets. cbn.
  destruct (_objs (self w) !! name); [|done].
  by destruct (_applied_transforms (self w) !! name).
Qed.

Lemma get_transform_registered name e w :
  _objs (self w) !! name = Some e →
  fst (get_transform name w) =
    match _applied_transforms (self w) !! name with
    | Some t => Return t
    | None => Raise (KeyError name)
    end.
Proof.
  intros H. unfold get_transform, bind, gets. cbn. rewrite H.
  by destruct (_applied_transforms (self w) !! name).
Qed.

(** ** The methods, outcome by outcome *)

Lemma set_transform_registered name e transform relative w :
  _objs (self w) !! name = Some e →
  set_transform name transform relative w =
    match new_pose (_applied_transforms (self w)) name transform relative with
    | None => (Raise (KeyError name), w)
    | Some t =>
        let w1 := placed (obj e) t w in
        match _applied_transforms (self w) !! name with
        | None =>
            (Return tt,
             with_self (with_applied_transforms <[name := t]>)
               (with_meshes (alter (apply_transform t) (mesh e)) w1))
        | Some prev =>
            match inv prev with
            | None => (Raise LinAlgError, w1)
            | Some i =>
                (Return tt,
                 with_self (with_applied_transforms <[name := t]>)
                   (with_meshes (alter (apply_transform t) (mesh e))
                      (with_meshes (alter (apply_transform i) (mesh e)) w1)))
            end
        end
    end.
Proof.
  intros H. unfold set_transform, new_pose, placed. py_unfold. cbn. rewrite H.
  destruct relative; cbn;
    destruct (_applied_transforms (self w) !! name) as [p|] eqn:Hp; cbn;
    rewrite ?Hp; try destruct (inv p); reflexivity.
Qed.

(** [update()] raises exactly when a registered object has a box without
    volume. *)
Lemma update_leaves_outcome objs l lv :
  fst (update_leaves objs l lv) =
    if existsb (λ o, from_option no_volume false (objs !! o)) l
    then Raise bounding_volume_error else Return tt.
Proof.
  revert lv. induction l as [|o l IH]; intros lv; [done|].
  cbn [update_leaves existsb].
  destruct (objs !! o) as [c|]; cbn [from_option orb]; [|apply IH].
  destruct (no_volume c); cbn [orb fst]; [done|apply IH].
Qed.

Lemma update_all_outcome w :
  update_all w =
    (if update_rejects w then Raise bounding_volume_error else Return tt,
     snd (update_all w)).
Proof.
  unfold update_all, update_rejects. cbn zeta. cbn [snd].
  by rewrite update_leaves_outcome.
Qed.

Lemma store_outcome name e w1 :
  store name e w1 =
    (if update_rejects (stored name e w1)
     then Raise bounding_volume_error else Return tt,
     stored name e w1).
Proof.
  unfold stored, store. py_unfold. cbn -[update_all update_rejects].
  rewrite update_all_outcome at 1. reflexivity.
Qed.

Lemma add_object_outcome b name mesh transform w :
  add_object b name mesh transform w =
    let a := default np_eye4 transform in
    if bool_decide (shape a ≠ [4; 4]%nat)
    then (Raise (ValueError "transform must be (4,4)!"), w)
    else
      let w' := stored name (new_entry mesh w) (built mesh a w) in
      let r := if update_rejects w' then Raise bounding_volume_error
               else Return tt in
      match _objs (self w) !! name with
      | Some d => if b then (Raise ArgumentError, built mesh a w) else (r, w')
      | None => (r, w')
      end.
Proof.
  cbn zeta. rewrite <- store_outcome.
  unfold add_object, store, built, new_entry. py_unfold. cbn.
  case_bool_decide; [done|].
  destruct (_objs (self w) !! name); [destruct b|]; reflexivity.
Qed.

(** What the named steps leave alone. *)

Lemma placed_meshes o t w : meshes (placed o t w) = meshes w.
Proof. reflexivity. Qed.

Lemma placed_objs o t w : _objs (self (placed o t w)) = _objs (self w).
Proof. reflexivity. Qed.

Lemma placed_applied_transforms o t w :
  _applied_transforms (self (placed o t w)) = _applied_transforms (self w).
Proof. reflexivity. Qed.

Lemma placed_names o t w : _names (self (placed o t w)) = _names (self w).
Proof. reflexivity. Qed.

Lemma placed_getObjects o t w :
  getObjects (_manager (self (placed o t w))) = getObjects (_manager (self w)).
Proof. unfold placed. py_unfold. cbn. by case_bool_decide. Qed.

(** The engine object is placed at the rotation and translation blocks;
    its box is the one it had. *)
Lemma placed_lookup o t w c :
  objects w !! o = Some c →
  objects (placed o t w) !! o = Some (place_at t c).
Proof.
  intros H. unfold placed. py_unfold. cbn.
  by rewrite !lookup_alter_eq, H.
Qed.

Lemma built_self mesh a w : self (built mesh a w) = self w.
Proof. reflexivity. Qed.

Lemma built_meshes mesh a w : meshes (built mesh a w) = meshes w.
Proof. reflexivity. Qed.

Lemma stored_meshes name e w : meshes (stored name e w) = meshes w.
Proof. reflexivity. Qed.

Lemma stored_objects name e w : objects (stored name e w) = objects w.
Proof. reflexivity. Qed.

Lemma stored_objs name e w :
  _objs (self (stored name e w)) = <[name := e]> (_objs (self w)).
Proof. reflexivity. Qed.

Lemma stored_names name e w :
  _names (self (stored name e w)) = <[id (geom e) := name]> (_names (self w)).
Proof. reflexivity. Qed.

Lemma stored_applied_transforms name e w :
  _applied_transforms (self (stored name e w)) = _applied_transforms (self w).
Proof. reflexivity. Qed.

Lemma stored_getObjects name e w :
  getObjects (_manager (self (stored name e w))) =
  getObjects (_manager (self w)) ++ [obj e].
Proof. reflexivity. Qed.

(** [add_object] does not write [self._applied_transforms], whatever its
    outcome. *)
Lemma add_object_applied_transforms b name mesh transform w :
  _applied_transforms (self (snd (add_object b name mesh transform w))) =
  _applied_transforms (self w).
Proof.
  rewrite add_object_outcome. cbn. case_bool_decide; [done|].
  destruct (_objs (self w) !! name); [destruct b|]; done.
Qed.

(** A name stays registered through [add_object] and [set_transform]. *)
Lemma add_object_keeps_registered b name mesh transform n w :
  is_Some (_objs (self w) !! n) →
  is_Some (_objs (self (snd (add_object b name mesh transform w))) !! n).
Proof.
  intros Hn. rewrite add_object_outcome. cbn. case_bool_decide; [done|].
  destruct (_objs (self w) !! name) eqn:Hd; [destruct b|]; cbn;
    rewrite ?stored_objs, ?built_self; try done;
    (destruct (decide (name = n)) as [->|];
      [rewrite lookup_insert_eq; eauto | by rewrite lookup_insert_ne]).
Qed.

Lemma set_transform_objs name t relative w :
  _objs (self (snd (set_transform name t relative w))) = _objs (self w).
Proof.
  destruct (_objs (self w) !! name) as [e|] eqn:He.
  - rewrite (set_transform_registered _ e) by done.
    destruct (new_pose _ _ _ _); [|done]. cbn.
    destruct (_applied_transforms (self w) !! name) as [p|]; [|done].
    by destruct (inv p).
  - by rewrite set_transform_unregistered.
Qed.

(** [set_transform] writes [self._applied_transforms] at its own name
    only. *)
Lemma set_transform_applied_other name n t relative w :
  n ≠ name →
  _applied_transforms (self (snd (set_transform name t relative w))) !! n =
  _applied_transforms (self w) !! n.
Proof.
  intros Hn. destruct (_objs (self w) !! name) as [e|] eqn:He.
  - rewrite (set_transform_registered _ e) by done.
    destruct (new_pose _ _ _ _); [|done]. cbn.
    destruct (_applied_transforms (self w) !! name) as [p|]; cbn.
    + destruct (inv p); cbn; [by rewrite lookup_insert_ne|done].
    + by rewrite lookup_insert_ne.
  - by rewrite set_transform_unregistered.
Qed.

(** ** Unregistered names (the first half of C5) *)

(** [set_transform] raises the "not in collision manager" [ValueError]
    exactly for an unregistered name, and then changes nothing. *)
Lemma set_transform_not_found_iff name t relative w :
  fst (set_transform name t relative w) = Raise (not_in_manager name) ↔
  _objs (self w) !! name = None.
Proof.
  split.
  - destruct (_objs (self w) !! name) as [e|] eqn:He; [|done].
    rewrite (set_transform_registered _ e) by done.
    destruct (new_pose _ _ _ _); [|done]. cbn.
    destruct (_applied_transforms (self w) !! name) as [p|]; [|done].
    by destruct (inv p).
  - intros H. by rewrite set_transform_unregistered.
Qed.

Lemma get_transform_not_found_iff name w :
  fst (get_transform name w) = Raise (not_in_manager name) ↔
  _objs (self w) !! name = None.
Proof.
  split.
  - destruct (_objs (self w) !! name) as [e|] eqn:He; [|done].
    rewrite (get_transform_registered _ e) by done.
    by destruct (_applied_transforms (self w) !! name).
  - intros H. by rewrite get_transform_unregistered.
Qed.

Lemma not_found_changes_nothing name t relative w :
  fst (set_transform name t relative w) = Raise (not_in_manager name) →
  snd (set_transform name t relative w) = w.
Proof.
  intros H%set_transform_not_found_iff. by rewrite set_transform_unregistered.
Qed.

(** ** Call sequences and the table of applied transforms *)

Lemma after_applied_transforms b c n w :
  (∀ t relative, c ≠ SetTransform n t relative) →
  _applied_transforms (self (after b c w)) !! n = _applied_transforms (self w) !! n.
Proof.
  intros Hc. destruct c as [name mesh tr|name t r|name|name| |cs bd]; unfold after.
  - by rewrite add_object_applied_transforms.
  - apply set_transform_applied_other. intros ->. by eapply Hc.
  - by rewrite get_transform_world.
  - unfold get_object, bind, gets, ret. cbn.
    by destruct (_objs (self w) !! name).
  - done.
  - done.
Qed.

Lemma run_applied_transforms b calls n w :
  (∀ t relative, SetTransform n t relative ∉ calls) →
  _applied_transforms (self (run b calls w)) !! n = _applied_transforms (self w) !! n.
Proof.
  revert w. induction calls as [|c calls IH]; intros w Hn; [done|].
  cbn. unfold run in IH. rewrite IH.
  - apply after_applied_transforms. intros t r ->. eapply Hn. left.
  - intros t r Hin. eapply Hn. right. exact Hin.
Qed.

(** C6.  A name that was registered by [add_object] and never passed to
    [set_transform] has no entry in the table of applied transforms:
    [get_transform] raises [KeyError] for it, and so does a relative
    [set_transform], both before anything is changed; [add_object] never
    writes the table. *)
Theorem never_moved_raises_KeyError b ms margin calls name :
  (∀ t relative, SetTransform name t relative ∉ calls) →
  let w := run b calls (start ms margin) in
  is_Some (_objs (self w) !! name) →
  get_transform name w = (Raise (KeyError name), w) ∧
  (∀ D, set_transform name D true w = (Raise (KeyError name), w)) ∧
  (∀ n mesh transform w0,
     _applied_transforms (self (snd (add_object b n mesh transform w0))) =
     _applied_transforms (self w0)).
Proof.
  intros Hnever w [e He].
  assert (Hnone : _applied_transforms (self w) !! name = None).
  { unfold w. by rewrite run_applied_transforms. }
  split; [|split].
  - unfold get_transform, bind, gets, raise. cbn. by rewrite He, Hnone.
  - intros D. rewrite (set_transform_registered _ e) by done.
    unfold new_pose. by rewrite Hnone.
  - intros. apply add_object_applied_transforms.
Qed.

(** ** Registration *)

(** C8, as the code has it.  [add_object] raises its validation error
    exactly when a transform is supplied whose shape is not (4,4), and then
    nothing is changed.  With the transform omitted the call is the call
    with [np.eye(4)] and the validation error is not raised.  A call that
    passes validation raises [ArgumentError] on a registered name (with the
    binding that checks argument types), and otherwise returns normally
    unless [update()] rejects a registered box without volume: that
    [ValueError] is raised after the name was entered in the registry. *)
Theorem add_object_validation b name mesh transform w :
  let r := add_object b name mesh transform w in
  (fst r = Raise not_4x4 ↔ ∃ a, transform = Some a ∧ shape a ≠ [4; 4]%nat) ∧
  (fst r = Raise not_4x4 → snd r = w) ∧
  (transform = None →
     r = add_object b name mesh (Some np_eye4) w ∧ fst r ≠ Raise not_4x4) ∧
  (fst r ≠ Raise not_4x4 →
     fst r =
       if bool_decide (is_Some (_objs (self w) !! name)) && b
       then Raise ArgumentError
       else if update_rejects (snd r) then Raise bounding_volume_error
            else Return tt) ∧
  (fst r = Raise bounding_volume_error →
     _objs (self (snd r)) !! name = Some (new_entry mesh w)).
Proof.
  intros r.
  assert (transform = None → r = add_object b name mesh (Some np_eye4) w)
    as Hnone by (by intros ->).
  assert (∀ c : bool,
            (if c then Raise bounding_volume_error else Return tt : result unit)
            ≠ Raise not_4x4) as Hupd.
  { intros []; [|done]. unfold bounding_volume_error, not_4x4. intros [=]. }
  assert (shape (default np_eye4 transform) ≠ [4; 4]%nat ↔
          ∃ a, transform = Some a ∧ shape a ≠ [4; 4]%nat) as Hshape.
  { destruct transform as [a|]; cbn.
    - split; [eauto|]. by intros (? & [= <-] & ?).
    - split; [intros Hne; by destruct Hne|]. by intros (? & ? & ?). }
  revert Hnone. unfold r. clear r. rewrite add_object_outcome. cbn zeta.
  case_bool_decide as Hs; intros Hnone.
  - cbn [fst snd]. split; [split; [intros _; by apply Hshape|done]|].
    split; [done|]. split.
    { intros ->. by destruct Hs. }
    split; [done|]. unfold not_4x4, bounding_volume_error. intros [=].
  - assert (¬ ∃ a, transform = Some a ∧ shape a ≠ [4; 4]%nat) as Hok.
    { by intros Hex%Hshape. }
    destruct (_objs (self w) !! name) as [d|]; [destruct b|]; cbn [fst snd].
    + split; [split; [done|by intros ?]|]. split; [done|].
      split; [intros Hn; split; [by apply Hnone|done]|].
      split; [|done]. intros _. by rewrite bool_decide_eq_true_2 by eauto.
    + split; [split; [by intros ?%Hupd|by intros ?]|].
      split; [by intros ?%Hupd|].
      split; [intros Hn; split; [by apply Hnone|apply Hupd]|].
      split; [intros _; by rewrite andb_false_r|].
      intros _. by rewrite stored_objs, lookup_insert_eq.
    + split; [split; [by intros ?%Hupd|by intros ?]|].
      split; [by intros ?%Hupd|].
      split; [intros Hn; split; [by apply Hnone|apply Hupd]|].
      split.
      { intros _. rewrite bool_decide_eq_false_2; [done|]. by intros [? ?]. }
      intros _. by rewrite stored_objs, lookup_insert_eq.
Qed.

(** The shape that [add_object] builds is placed at the supplied transform
    (the identity when it is omitted). *)
Lemma add_object_new_shape b name mesh transform w :
  fst (add_object b name mesh transform w) = Return tt →
  let a := default np_eye4 transform in
  let w' := snd (add_object b name mesh transform w) in
  _objs (self w') !! name = Some (new_entry mesh w) ∧
  objects w' !! obj (new_entry mesh w) =
    Some (collision_object (geom (new_entry mesh w))
            (Tf (rotation_block (to_mat4 a)) (translation_block (to_mat4 a)))) ∧
  meshes w' = meshes w.
Proof.
  rewrite !add_object_outcome. cbn zeta. case_bool_decide; [done|].
  assert (∀ e, objects (stored name e (built mesh (default np_eye4 transform) w))
                 !! obj (new_entry mesh w) =
               Some (collision_object (geom (new_entry mesh w))
                 (Tf (rotation_block (to_mat4 (default np_eye4 transform)))
                     (translation_block (to_mat4 (default np_eye4 transform)))))) as Ho.
  { intros e. rewrite stored_objects. unfold built, new_entry. cbn.
    by rewrite lookup_insert_eq. }
  destruct (_objs (self w) !! name); [destruct b|]; try done; intros _;
    cbn [fst snd]; rewrite stored_objs, lookup_insert_eq; auto.
Qed.

(** C7, as the code has it.  [add_object] on a registered name, with the
    binding that checks argument types: the call raises before the
    registry is written, so nothing is replaced.  The name keeps its entry
    (object, geometry, mesh) and its stored applied transform [p],
    whatever transform was supplied; [get_transform] still returns [p],
    and the next relative [set_transform] with [D] moves the old shape to
    [D @ p] and on the old mesh undoes [p] before applying [D @ p]. *)
Theorem readd_keeps_applied_transform name e new_mesh transform w p :
  _objs (self w) !! name = Some e →
  _applied_transforms (self w) !! name = Some p →
  let r := add_object true name new_mesh transform w in
  let w' := snd r in
  (fst r = Raise ArgumentError ∨ fst r = Raise not_4x4) ∧
  self w' = self w ∧
  meshes w' = meshes w ∧
  _objs (self w') !! name = Some e ∧
  get_transform name w' = (Return p, w') ∧
  ∀ D, set_transform name D true w' =
       match inv p with
       | Some i =>
           (Return tt,
            with_self (with_applied_transforms <[name := D @@ p]>)
              (with_meshes (alter (apply_transform (D @@ p)) (mesh e))
                 (with_meshes (alter (apply_transform i) (mesh e))
                    (placed (obj e) (D @@ p) w'))))
       | None => (Raise LinAlgError, placed (obj e) (D @@ p) w')
       end.
Proof.
  intros He Hp r w'.
  assert ((fst r = Raise ArgumentError ∨ fst r = Raise not_4x4) ∧
          self w' = self w ∧ meshes w' = meshes w) as (Hr & Hself & Hms).
  { unfold w', r. rewrite add_object_outcome. cbn zeta. rewrite He.
    case_bool_decide; cbn; auto. }
  clearbody w' r. split; [done|]. split; [done|]. split; [done|].
  split; [by rewrite Hself|]. split.
  - unfold get_transform, bind, gets, ret. cbn. rewrite Hself, He. cbn.
    by rewrite Hself, Hp.
  - intros D. rewrite (set_transform_registered _ e) by by rewrite Hself.
    unfold new_pose. rewrite Hself, Hp. cbn. reflexivity.
Qed.

(** ** Contact resolution *)

Lemma contact_key_None s c :
  contact_key s c = None ↔
  _names s !! id (o1 c) = None ∨ _names s !! id (o2 c) = None.
Proof.
  unfold contact_key, _extract_name.
  destruct (_names s !! id (o1 c)), (_names s !! id (o2 c));
    (split; [intros H | intros [H|H]]); (done || auto).
Qed.

(** One turn of the loop, by the key of the contact. *)
Lemma resolve_contacts_cons s bd c rest acc :
  resolve_contacts s bd (c :: rest) acc =
    match contact_key s c with
    | None => Raise AssertionError
    | Some k =>
        if bool_decide (is_Some (acc !! k))
        then Raise (RuntimeWarning "conflicting contact pairs!")
        else resolve_contacts s bd rest
               (let acc1 := <[k := (getNearestPoint1 c, getNearestPoint2 c)]> acc in
                if bd
                then <[mirror k := (getNearestPoint2 c, getNearestPoint1 c)]> acc1
                else acc1)
    end.
Proof.
  cbn. unfold contact_key.
  destruct (_extract_name s (o1 c)), (_extract_name s (o2 c)); done.
Qed.

(** The loop raises nothing but the two consistency errors. *)
Lemma resolve_contacts_errors s bd contacts acc e :
  resolve_contacts s bd contacts acc = Raise e → consistency_error e.
Proof.
  revert acc. induction contacts as [|c rest IH]; intros acc; [done|].
  rewrite resolve_contacts_cons. destruct (contact_key s c) as [k|].
  - case_bool_decide; [intros [= <-]; by right | apply IH].
  - intros [= <-]. by left.
Qed.

(** A key of the dictionary stays in it through one turn. *)
Lemma turn_keeps_keys (bd : bool) (k k0 : pair_key) (v1 v2 : pair_points)
    (acc : gmap pair_key pair_points) :
  is_Some (acc !! k) →
  is_Some ((let acc1 := <[k0 := v1]> acc in
            if bd then <[mirror k0 := v2]> acc1 else acc1) !! k).
Proof.
  intros H. cbn zeta.
  assert (is_Some (<[k0 := v1]> acc !! k)) as H1.
  { destruct (decide (k0 = k)) as [->|];
      [rewrite lookup_insert_eq; eauto | by rewrite lookup_insert_ne]. }
  destruct bd; [|done].
  destruct (decide (mirror k0 = k)) as [->|];
    [rewrite lookup_insert_eq; eauto | by rewrite lookup_insert_ne].
Qed.

(** A contact whose key is already in the dictionary stops the loop. *)
Lemma resolve_contacts_present s bd contacts acc c k :
  c ∈ contacts → contact_key s c = Some k → is_Some (acc !! k) →
  ∃ e, resolve_contacts s bd contacts acc = Raise e.
Proof.
  revert acc. induction contacts as [|c0 rest IH]; intros acc Hin Hk Hacc.
  - by apply elem_of_nil in Hin.
  - rewrite resolve_contacts_cons.
    destruct (contact_key s c0) as [k0|] eqn:Hk0; [|eauto].
    case_bool_decide as Hd; [eauto|].
    apply elem_of_cons in Hin as [->|Hin]; [congruence|].
    apply (IH _ Hin Hk). by apply turn_keeps_keys.
Qed.

(** C4.  A contact list that holds a contact one of whose geometries has
    no name recorded makes [get_collision_pairs] raise: no dictionary is
    returned, with or without that contact.  The error is one of the two
    consistency errors, and nothing is changed. *)
Theorem unresolved_contact_raises contacts bidirectional w c :
  c ∈ contacts →
  _names (self w) !! id (o1 c) = None ∨ _names (self w) !! id (o2 c) = None →
  ∃ e, get_collision_pairs contacts bidirectional w = (Raise e, w) ∧
       consistency_error e.
Proof.
  intros Hin Hc%contact_key_None. unfold get_collision_pairs.
  assert (∀ acc, ∃ e, resolve_contacts (self w) bidirectional contacts acc = Raise e)
    as Hraise.
  { clear -Hin Hc. induction contacts as [|c0 rest IH]; intros acc.
    - by apply elem_of_nil in Hin.
    - rewrite resolve_contacts_cons.
      destruct (contact_key (self w) c0) as [k0|] eqn:Hk0; [|eauto].
      case_bool_decide; [eauto|].
      apply elem_of_cons in Hin as [->|Hin]; [congruence|]. by apply IH. }
  destruct (Hraise ∅) as [e He]. exists e. rewrite He. split; [done|].
  by eapply resolve_contacts_errors.
Qed.

(** C9.  Two contacts of the list with the same key make
    [get_collision_pairs] raise instead of keeping one of them; when every
    contact of the list resolves, the error is the [RuntimeWarning]. *)
Theorem repeated_key_raises contacts bidirectional w i j ci cj k :
  (i < j)%nat →
  contacts !! i = Some ci → contacts !! j = Some cj →
  contact_key (self w) ci = Some k → contact_key (self w) cj = Some k →
  ∃ e, get_collision_pairs contacts bidirectional w = (Raise e, w) ∧
       consistency_error e ∧
       (Forall (λ c, is_Some (contact_key (self w) c)) contacts →
        e = RuntimeWarning "conflicting contact pairs!").
Proof.
  intros Hij Hi Hj Hki Hkj. unfold get_collision_pairs.
  assert (∀ acc, ∃ e, resolve_contacts (self w) bidirectional contacts acc = Raise e)
    as Hraise.
  { clear -Hij Hi Hj Hki Hkj. revert i j Hij Hi Hj.
    induction contacts as [|c0 rest IH]; intros i j Hij Hi Hj acc; [done|].
    rewrite resolve_contacts_cons.
    destruct (contact_key (self w) c0) as [k0|] eqn:Hk0; [|eauto].
    case_bool_decide; [eauto|].
    destruct j as [|j]; [lia|]. cbn in Hj. destruct i as [|i].
    - injection Hi as ->. assert (k0 = k) as -> by congruence.
      apply (resolve_contacts_present _ _ _ _ cj k); [|done|].
      + by eapply list_elem_of_lookup_2.
      + cbn zeta. destruct bidirectional.
        * destruct (decide (mirror k = k)) as [->|];
            [rewrite lookup_insert_eq; eauto|].
          rewrite lookup_insert_ne by done. rewrite lookup_insert_eq; eauto.
        * rewrite lookup_insert_eq; eauto.
    - cbn in Hi. apply (IH i j); [lia|done|done]. }
  destruct (Hraise ∅) as [e He]. exists e. rewrite He. split; [done|].
  split; [by eapply resolve_contacts_errors|].
  clear -He. revert He. generalize (∅ : gmap pair_key pair_points).
  induction contacts as [|c0 rest IH]; intros acc He Hall; [done|].
  rewrite resolve_contacts_cons in He. apply Forall_cons in Hall as [[k0 Hk0] Hall].
  rewrite Hk0 in He. case_bool_decide; [congruence|]. by eapply IH.
Qed.

(** *** Bidirectional mirroring *)

Lemma mirror_involutive k : mirror (mirror k) = k.
Proof. by destruct k as [[[A B] i] j]. Qed.

Lemma mirror_inj k1 k2 : mirror k1 = mirror k2 → k1 = k2.
Proof. intros H. by rewrite <- (mirror_involutive k1), H, mirror_involutive. Qed.

(** One turn of the bidirectional loop keeps the mirroring. *)
Lemma mirrored_apart_turn (acc : gmap pair_key pair_points) k0 p1 p2 :
  mirrored_apart acc → acc !! k0 = None →
  mirrored_apart (<[mirror k0 := (p2, p1)]> (<[k0 := (p1, p2)]> acc)).
Proof.
  intros Hacc Hk0.
  assert (acc !! mirror k0 = None) as Hm0.
  { destruct (acc !! mirror k0) as [[qA qB]|] eqn:Hq; [|done].
    destruct (Hacc _ _ _ Hq) as [[v Hv] _].
    rewrite mirror_involutive in Hv. congruence. }
  intros k pA pB Hk.
  destruct (decide (k = mirror k0)) as [->|Hne1].
  - rewrite lookup_insert_eq in Hk. injection Hk as <- <-.
    rewrite mirror_involutive. split.
    + destruct (decide (mirror k0 = k0)) as [->|];
        [rewrite lookup_insert_eq; eauto|].
      rewrite lookup_insert_ne by done. rewrite lookup_insert_eq; eauto.
    + intros Hne. rewrite lookup_insert_ne by done. by rewrite lookup_insert_eq.
  - rewrite lookup_insert_ne in Hk by done.
    destruct (decide (k = k0)) as [->|Hne2].
    + rewrite lookup_insert_eq in Hk. injection Hk as <- <-.
      rewrite lookup_insert_eq. eauto.
    + rewrite lookup_insert_ne in Hk by done.
      destruct (Hacc _ _ _ Hk) as [Hs Hsw].
      assert (mirror k0 ≠ mirror k) by (intros ?%mirror_inj; done).
      assert (k0 ≠ mirror k).
      { intros ->. apply Hne1. by rewrite mirror_involutive. }
      by rewrite !lookup_insert_ne.
Qed.

Lemma resolve_contacts_mirrored s contacts acc d :
  mirrored_apart acc →
  resolve_contacts s true contacts acc = Return d →
  mirrored_apart d.
Proof.
  revert acc. induction contacts as [|c rest IH]; intros acc Hacc.
  - cbn. by intros [= <-].
  - rewrite resolve_contacts_cons. destruct (contact_key s c) as [k|]; [|done].
    case_bool_decide as Hd; [done|]. apply IH. cbn zeta.
    apply mirrored_apart_turn; [done|].
    destruct (acc !! k) eqn:E; [|done]. exfalso. apply Hd. eauto.
Qed.

(** C10, as the code has it.  In the dictionary that a bidirectional
    [get_collision_pairs] returns, every key has its mirrored key, and the
    mirrored key holds the swapped points whenever it is another key. *)
Theorem bidirectional_mirrored_apart contacts w d :
  fst (get_collision_pairs contacts true w) = Return d →
  ∀ nameA nameB i j pA pB,
    d !! (nameA, nameB, i, j) = Some (pA, pB) →
    is_Some (d !! (nameB, nameA, j, i)) ∧
    ((nameA, i) ≠ (nameB, j) → d !! (nameB, nameA, j, i) = Some (pB, pA)).
Proof.
  unfold get_collision_pairs. cbn [fst]. intros Hd nameA nameB i j pA pB Hk.
  assert (mirrored_apart d) as Hm.
  { eapply resolve_contacts_mirrored; [|exact Hd]. intros k ? ? Hk0.
    by rewrite lookup_empty in Hk0. }
  destruct (Hm _ _ _ Hk) as [H1 H2]. cbn in H1, H2. split; [done|].
  intros Hne. apply H2. intros [= E1 _ E3 _]. apply Hne. congruence.
Qed.

(** ** Transform bookkeeping *)

Lemma placed_eq o t w :
  placed o t w =
  Wld (meshes w) (alter (place_at t) o (objects w)) (fresh w)
    (with_manager
       (λ m, if bool_decide (o ∈ getObjects m)
             then Tree (getObjects m)
                    (match objects w !! o with
                     | Some c => <[o := getAABB c]> (leaves m)
                     | None => leaves m
                     end)
             else m)
       (self w)).
Proof.
  unfold placed. py_unfold. cbn. unfold with_objects, with_self, with_manager. cbn.
  rewrite alter_alter_eq. f_equal.
  f_equal. case_bool_decide; [|done]. f_equal. unfold refresh.
  rewrite lookup_alter_eq. destruct (objects w !! o); done.
Qed.

(** Placing an object twice is placing it the second time; writes to the
    meshes and to the table of applied transforms do not interfere. *)
Lemma placed_placed o t1 t2 f g w :
  placed o t2 (with_self (with_applied_transforms f) (with_meshes g (placed o t1 w))) =
  with_self (with_applied_transforms f) (with_meshes g (placed o t2 w)).
Proof.
  rewrite !placed_eq.
  unfold with_self, with_meshes, with_applied_transforms, with_manager. cbn.
  f_equal.
  - rewrite alter_alter_eq. by apply alter_ext.
  - f_equal. rewrite lookup_alter_eq.
    destruct (bool_decide (o ∈ getObjects (_manager (self w)))) eqn:Hin; cbn;
      rewrite Hin; [|done].
    f_equal. destruct (objects w !! o); cbn; [|done].
    by rewrite insert_insert_eq.
Qed.

(** A relative call is the absolute call with the product. *)
Lemma relative_is_absolute name D p w :
  _applied_transforms (self w) !! name = Some p →
  set_transform name D true w = set_transform name (D @@ p) false w.
Proof.
  intros Hp. destruct (_objs (self w) !! name) as [e|] eqn:He.
  - rewrite !(set_transform_registered _ e) by done. unfold new_pose.
    by rewrite Hp.
  - by rewrite !set_transform_unregistered.
Qed.

(** The world after an absolute call, when numpy inverts the stored
    transform (if there is one): [G0] is the undo step on the meshes. *)
Lemma absolute_form name e w :
  _objs (self w) !! name = Some e →
  (∀ p, _applied_transforms (self w) !! name = Some p → is_Some (inv p)) →
  ∃ G0 : gmap loc Trimesh → gmap loc Trimesh,
    (∀ k ms, k ≠ mesh e → G0 ms !! k = ms !! k) ∧
    ∀ t,
      set_transform name t false w =
        (Return tt,
         with_self (with_applied_transforms <[name := t]>)
           (with_meshes (λ ms, alter (apply_transform t) (mesh e) (G0 ms))
              (placed (obj e) t w))).
Proof.
  intros He Hprev.
  destruct (_applied_transforms (self w) !! name) as [p|] eqn:Hp.
  - destruct (Hprev p eq_refl) as [ip Hip].
    exists (alter (apply_transform ip) (mesh e)). split.
    + intros k ms Hk. by rewrite lookup_alter_ne.
    + intros t. rewrite (set_transform_registered _ e) by done. cbn.
      by rewrite Hp, Hip.
  - exists (λ ms, ms). split; [done|]. intros t.
    rewrite (set_transform_registered _ e) by done. cbn. by rewrite Hp.
Qed.

(** Two absolute calls in a row, against the second made alone.  The
    registry, the stored transform and the engine object are the same; the
    mesh of the two calls went through [T1] and the inverse that numpy
    computed for it. *)
Lemma absolute_twice name e T1 i1 t w :
  _objs (self w) !! name = Some e →
  inv T1 = Some i1 →
  (∀ p, _applied_transforms (self w) !! name = Some p → is_Some (inv p)) →
  let w1 := snd (set_transform name T1 false w) in
  let w2 := snd (set_transform name t false w1) in
  let w' := snd (set_transform name t false w) in
  fst (set_transform name T1 false w) = Return tt ∧
  fst (set_transform name t false w1) = Return tt ∧
  fst (set_transform name t false w) = Return tt ∧
  _applied_transforms (self w1) !! name = Some T1 ∧
  self w2 = self w' ∧ objects w2 = objects w' ∧ fresh w2 = fresh w' ∧
  (∀ k, k ≠ mesh e → meshes w2 !! k = meshes w' !! k) ∧
  (∃ mu, meshes w' !! mesh e = apply_transform t <$> mu ∧
         meshes w2 !! mesh e =
           apply_transform t <$> (apply_transform i1 <$> (apply_transform T1 <$> mu))) ∧
  ((∀ m, apply_transform i1 (apply_transform T1 m) = m) → w2 = w').
Proof.
  intros He Hi1 Hprev.
  destruct (absolute_form name e w He Hprev) as (G0 & HG0 & Habs).
  cbn zeta. rewrite !Habs. cbn [fst snd].
  set (w1 := with_self _ (with_meshes _ (placed (obj e) T1 w))).
  assert (_objs (self w1) !! name = Some e) as He1 by done.
  assert (_applied_transforms (self w1) !! name = Some T1) as Hp1.
  { unfold w1. cbn. apply lookup_insert_eq. }
  rewrite (set_transform_registered _ e) by done.
  unfold new_pose. rewrite Hp1. cbn zeta. rewrite Hi1. cbn [fst snd].
  unfold w1. rewrite placed_placed.
  split; [done|]. split; [done|]. split; [done|]. split; [done|].
  split.
  { unfold with_self, with_meshes, with_applied_transforms. cbn.
    by rewrite insert_insert_eq. }
  split; [done|]. split; [done|]. split.
  { intros k Hk. cbn. rewrite !lookup_alter_ne by done. done. }
  split.
  { exists (G0 (meshes (placed (obj e) t w)) !! mesh e). cbn.
    rewrite !lookup_alter_eq. done. }
  intros Hround.
  unfold with_self, with_meshes, with_applied_transforms. cbn.
  rewrite insert_insert_eq. f_equal.
  rewrite (alter_alter_eq (apply_transform i1)).
  rewrite (alter_id (apply_transform i1 ∘ apply_transform T1)); [done|].
  intros x _. apply Hround.
Qed.

(** After a call that returned, the pose it computed is stored, and
    [get_transform] returns it. *)
Lemma set_transform_then_get_value name T relative w :
  fst (set_transform name T relative w) = Return tt →
  ∃ t, get_transform name (snd (set_transform name T relative w)) =
         (Return t, snd (set_transform name T relative w)) ∧
       _applied_transforms (self (snd (set_transform name T relative w)))
         !! name = Some t ∧
       (relative = false → t = T).
Proof.
  destruct (_objs (self w) !! name) as [e|] eqn:He;
    [|by rewrite set_transform_unregistered].
  rewrite (set_transform_registered _ e) by done.
  destruct (new_pose _ _ _ _) as [t|] eqn:Ht; [|done]. cbn zeta.
  assert (relative = false → t = T) as Hshape.
  { unfold new_pose in Ht. destruct relative; [done|].
    intros _. by injection Ht as <-. }
  assert (∀ w1 : World,
    _objs (self w1) !! name = Some e →
    _applied_transforms (self w1) !! name = Some t →
    get_transform name w1 = (Return t, w1)) as Hget.
  { intros w1 H1 H2. unfold get_transform, bind, gets, ret. by rewrite H1, H2. }
  destruct (_applied_transforms (self w) !! name) as [p|].
  - destruct (inv p) as [i|]; [|done]. intros _. exists t.
    assert (_applied_transforms (self (with_self
              (with_applied_transforms <[name := t]>)
              (with_meshes (alter (apply_transform t) (mesh e))
                 (with_meshes (alter (apply_transform i) (mesh e))
                    (placed (obj e) t w))))) !! name = Some t) as Hst
      by (cbn; apply lookup_insert_eq).
    split; [by apply Hget|]. done.
  - intros _. exists t.
    assert (_applied_transforms (self (with_self
              (with_applied_transforms <[name := t]>)
              (with_meshes (alter (apply_transform t) (mesh e))
                 (placed (obj e) t w)))) !! name = Some t) as Hst
      by (cbn; apply lookup_insert_eq).
    split; [by apply Hget|]. done.
Qed.

(** C2, as the code has it.  For a registered name, a transform [T0] that
    numpy inverts, and a stored transform (if there is one) that numpy
    inverts: the absolute call with [T0] followed by the relative call
    with [D] both return and [get_transform] then returns the product
    [D @ T0].  Against the single absolute call with [D @ T0], the
    registry, the stored transform and the engine object are the same, and
    so is every other mesh; the mesh of the name went through [T0] and the
    inverse computed for it before [D @ T0] was applied.  The two worlds
    are equal when that round trip restores the mesh. *)
Theorem relative_composition_law name e T0 i0 D w :
  _objs (self w) !! name = Some e →
  inv T0 = Some i0 →
  (∀ p, _applied_transforms (self w) !! name = Some p → is_Some (inv p)) →
  let w1 := snd (set_transform name T0 false w) in
  let w2 := snd (set_transform name D true w1) in
  let w' := snd (set_transform name (D @@ T0) false w) in
  fst (set_transform name T0 false w) = Return tt ∧
  fst (set_transform name D true w1) = Return tt ∧
  fst (set_transform name (D @@ T0) false w) = Return tt ∧
  get_transform name w2 = (Return (D @@ T0), w2) ∧
  self w2 = self w' ∧ objects w2 = objects w' ∧ fresh w2 = fresh w' ∧
  (∀ k, k ≠ mesh e → meshes w2 !! k = meshes w' !! k) ∧
  (∃ mu, meshes w' !! mesh e = apply_transform (D @@ T0) <$> mu ∧
         meshes w2 !! mesh e =
           apply_transform (D @@ T0) <$>
             (apply_transform i0 <$> (apply_transform T0 <$> mu))) ∧
  ((∀ m, apply_transform i0 (apply_transform T0 m) = m) → w2 = w').
Proof.
  intros He Hi0 Hprev. cbn zeta.
  destruct (absolute_twice name e T0 i0 (D @@ T0) w He Hi0 Hprev)
    as (H1 & H2 & H3 & Hp1 & Hself & Hobj & Hfresh & Hother & Hmesh & Heq).
  rewrite (relative_is_absolute name D T0) by done.
  split; [done|]. split; [done|]. split; [done|]. split; [|done].
  destruct (set_transform_then_get_value name (D @@ T0) false
              (snd (set_transform name T0 false w)) H2) as (t & Hget & _ & Ht).
  rewrite Hget. by rewrite Ht.
Qed.

(** ** Pose consistency *)

(** Without a stored transform there is no pose the three could share:
    after [add_object] on a name that has none, the object is not in
    sync. *)
Lemma add_object_not_in_sync b name mesh transform w :
  _applied_transforms (self w) !! name = None →
  ¬ in_sync (snd (add_object b name mesh transform w)) name.
Proof.
  intros Hnone (e & c & m & t & _ & _ & _ & Ht & _).
  rewrite add_object_applied_transforms in Ht. congruence.
Qed.

(** ** Replacement *)

(** [add_object] removes no object from the tree. *)
Lemma add_object_never_unregisters b name mesh transform w o :
  o ∈ getObjects (_manager (self w)) →
  o ∈ getObjects (_manager (self (snd (add_object b name mesh transform w)))).
Proof.
  intros Ho. rewrite add_object_outcome. cbn zeta. case_bool_decide; [done|].
  destruct (_objs (self w) !! name); [destruct b|]; cbn [snd];
    rewrite ?stored_getObjects, ?built_self; try done;
    apply elem_of_app; by left.
Qed.

(** * Further properties of the methods *)

(** ** Outcomes of [set_transform] *)

(** X1.  After a [set_transform] that returned, [get_transform] returns the
    pose it computed: the matrix passed for an absolute call, the product
    with the stored transform for a relative one. *)
Theorem set_transform_then_get name T relative w :
  fst (set_transform name T relative w) = Return tt →
  let w' := snd (set_transform name T relative w) in
  ∃ t, get_transform name w' = (Return t, w') ∧
       (relative = false → t = T) ∧
       (∀ p, relative = true →
             _applied_transforms (self w) !! name = Some p → t = T @@ p).
Proof.
  intros Hret w'. subst w'. revert Hret.
  destruct (_objs (self w) !! name) as [e|] eqn:He;
    [|by rewrite set_transform_unregistered].
  rewrite (set_transform_registered _ e) by done.
  destruct (new_pose _ _ _ _) as [t|] eqn:Ht; [|done]. cbn zeta.
  assert ((relative = false → t = T) ∧
          (∀ p, relative = true →
                _applied_transforms (self w) !! name = Some p → t = T @@ p)) as Hshape.
  { unfold new_pose in Ht. destruct relative.
    - split; [done|]. intros p _ Hp. rewrite Hp in Ht. by injection Ht as <-.
    - split; [intros _; by injection Ht as <-|done]. }
  assert (∀ w1 : World,
    _objs (self w1) !! name = Some e →
    _applied_transforms (self w1) !! name = Some t →
    get_transform name w1 = (Return t, w1)) as Hget.
  { intros w1 H1 H2. unfold get_transform, bind, gets, ret. by rewrite H1, H2. }
  destruct (_applied_transforms (self w) !! name) as [p|].
  - destruct (inv p); [|done]. intros _. exists t. split; [|done].
    apply Hget; [done|]. cbn. apply lookup_insert_eq.
  - intros _. exists t. split; [|done].
    apply Hget; [done|]. cbn. apply lookup_insert_eq.
Qed.

(** X2.  Every outcome of [set_transform], by the state it is called in:
    the [ValueError] for an unregistered name; for a registered one,
    [KeyError] when the call is relative and no transform is stored,
    [LinAlgError] when [np.linalg.inv] raises on the stored transform, and
    a normal return otherwise. *)
Theorem set_transform_outcome name T relative w :
  fst (set_transform name T relative w) =
    match _objs (self w) !! name with
    | None => Raise (not_in_manager name)
    | Some _ =>
        match _applied_transforms (self w) !! name with
        | None => if relative then Raise (KeyError name) else Return tt
        | Some p =>
            match inv p with
            | Some _ => Return tt
            | None => Raise LinAlgError
            end
        end
    end.
Proof.
  destruct (_objs (self w) !! name) as [e|] eqn:He;
    [|by rewrite set_transform_unregistered].
  rewrite (set_transform_registered _ e) by done. unfold new_pose.
  destruct (_applied_transforms (self w) !! name) as [p|]; cbn.
  - destruct relative; cbn; by destruct (inv p).
  - by destruct relative.
Qed.

(** X3.  [set_transform] is not atomic.  When [np.linalg.inv] raises on
    the stored transform, the call raises [LinAlgError] after the engine
    object has been moved to the new pose: the mesh, the table of applied
    transforms and the registry are as before, the object is not. *)
Theorem set_transform_LinAlgError_is_partial name e c T (relative : bool) w p :
  _objs (self w) !! name = Some e →
  objects w !! obj e = Some c →
  _applied_transforms (self w) !! name = Some p →
  inv p = None →
  let t := if relative then T @@ p else T in
  let w' := snd (set_transform name T relative w) in
  fst (set_transform name T relative w) = Raise LinAlgError ∧
  objects w' !! obj e = Some (place_at t c) ∧
  meshes w' = meshes w ∧
  _applied_transforms (self w') = _applied_transforms (self w) ∧
  _objs (self w') = _objs (self w).
Proof.
  intros He Hc Hp Hinv. cbn zeta.
  rewrite (set_transform_registered _ e) by done. unfold new_pose.
  rewrite Hp, Hinv.
  destruct relative; cbn [fmap option_fmap option_map fst snd]; cbn zeta;
    (split; [done|split; [|done]]);
    rewrite placed_eq; cbn; by rewrite lookup_alter_eq, Hc.
Qed.

(** A registered name on whose stored transform [np.linalg.inv] raises:
    the call raises after the object was placed. *)
Lemma set_transform_singular name e T relative w p :
  _objs (self w) !! name = Some e →
  _applied_transforms (self w) !! name = Some p →
  inv p = None →
  ∃ t, set_transform name T relative w = (Raise LinAlgError, placed (obj e) t w).
Proof.
  intros He Hp Hinv. rewrite (set_transform_registered _ e) by done.
  unfold new_pose. rewrite Hp.
  destruct relative; cbn; rewrite Hinv; eauto.
Qed.

Lemma after_singular_stays b c name p w :
  _applied_transforms (self w) !! name = Some p → inv p = None →
  _applied_transforms (self (after b c w)) !! name = Some p.
Proof.
  intros Hp Hinv.
  destruct c as [n mesh tr|n t r|n|n| |cs bd]; unfold after.
  - by rewrite add_object_applied_transforms.
  - destruct (decide (name = n)) as [<-|Hne];
      [|by rewrite set_transform_applied_other].
    destruct (_objs (self w) !! name) as [e|] eqn:He;
      [|by rewrite set_transform_unregistered].
    destruct (set_transform_singular name e t r w p He Hp Hinv) as [t' ->].
    exact Hp.
  - by rewrite get_transform_world.
  - unfold get_object, bind, gets, ret. cbn.
    by destruct (_objs (self w) !! n).
  - done.
  - done.
Qed.

(** X4.  A transform on which [np.linalg.inv] raises, once stored, is
    there for good: through every sequence of calls it stays the stored
    transform of its name, and no [set_transform] on that name returns
    normally any more. *)
Theorem singular_transform_is_permanent b calls name p w :
  _applied_transforms (self w) !! name = Some p →
  inv p = None →
  _applied_transforms (self (run b calls w)) !! name = Some p ∧
  ∀ T relative, fst (set_transform name T relative (run b calls w)) ≠ Return tt.
Proof.
  intros Hp Hinv.
  assert (_applied_transforms (self (run b calls w)) !! name = Some p) as Hrun.
  { revert w Hp. induction calls as [|c calls IH]; intros w Hp; [done|].
    cbn. apply IH. by apply after_singular_stays. }
  split; [done|]. intros T relative.
  destruct (_objs (self (run b calls w)) !! name) as [e|] eqn:He.
  - destruct (set_transform_singular name e T relative _ p He Hrun Hinv) as [t ->].
    done.
  - by rewrite set_transform_unregistered.
Qed.

(** ** How calls of [set_transform] compose *)


(** X6.  Relative calls compose in the order the code multiplies.  A
    relative call with [D] is the absolute call with the product [D @ p],
    [p] being the stored transform; so after two relative calls with [D1]
    and then [D2] that return, the stored transform is [D2 @ (D1 @ p)]. *)
Theorem relative_calls_compose name p D1 D2 w :
  _applied_transforms (self w) !! name = Some p →
  let r1 := set_transform name D1 true w in
  let r2 := set_transform name D2 true (snd r1) in
  r1 = set_transform name (D1 @@ p) false w ∧
  (fst r1 = Return tt →
     r2 = set_transform name (D2 @@ (D1 @@ p)) false (snd r1) ∧
     (fst r2 = Return tt →
        get_transform name (snd r2) = (Return (D2 @@ (D1 @@ p)), snd r2))).
Proof.
  intros Hp. cbn zeta.
  rewrite (relative_is_absolute name D1 p) by done. split; [done|].
  intros H1.
  destruct (set_transform_then_get_value name (D1 @@ p) false w H1)
    as (t1 & _ & Hp1 & Ht1). rewrite Ht1 in Hp1 by done.
  rewrite (relative_is_absolute name D2 (D1 @@ p)) by done.
  split; [done|]. intros H2.
  destruct (set_transform_then_get_value name (D2 @@ (D1 @@ p)) false _ H2)
    as (t2 & Hget2 & _ & Ht2). rewrite Ht2 in Hget2 by done. exact Hget2.
Qed.

(** ** Bookkeeping over call sequences *)

Lemma start_bookkept ms margin : bookkept (start ms margin).
Proof.
  split; cbn.
  - intros n [t Ht]. by rewrite lookup_empty in Ht.
  - intros i n H. by rewrite lookup_empty in H.
  - intros n e H. by rewrite lookup_empty in H.
  - intros n e H. by rewrite lookup_empty in H.
Qed.

Lemma built_bookkept mesh a w : bookkept w → bookkept (built mesh a w).
Proof.
  intros [Ha Hn Hr Ht]. split; cbn.
  - exact Ha.
  - intros i n H. destruct (Hn i n H). split; [done|lia].
  - exact Hr.
  - intros n e H. destruct (Ht n e H) as (H1 & H2 & c & Hc & Hg).
    split; [done|]. split; [lia|]. exists c. split; [|done].
    rewrite lookup_insert_ne by lia. done.
Qed.

Lemma stored_bookkept name mesh a w :
  bookkept w →
  bookkept (stored name (new_entry mesh w) (built mesh a w)).
Proof.
  intros [Ha Hn Hr Ht]. split.
  - intros n Hs. rewrite stored_applied_transforms, built_self in Hs.
    rewrite stored_objs, built_self.
    destruct (decide (name = n)) as [->|];
      [rewrite lookup_insert_eq; eauto | rewrite lookup_insert_ne by done; auto].
  - intros i n. rewrite stored_names, stored_objs, built_self. cbn.
    destruct (decide (fresh w = i)) as [<-|Hi].
    + rewrite lookup_insert_eq. intros [= <-].
      rewrite lookup_insert_eq. split; [eauto|lia].
    + rewrite lookup_insert_ne by done. intros H. destruct (Hn i n H) as [Hreg Hlt].
      split; [|lia].
      destruct (decide (name = n)) as [->|];
        [rewrite lookup_insert_eq; eauto | by rewrite lookup_insert_ne].
  - intros n e. rewrite stored_names, stored_objs, built_self. cbn.
    destruct (decide (name = n)) as [->|Hne].
    + rewrite lookup_insert_eq. intros [= <-]. cbn. by rewrite lookup_insert_eq.
    + rewrite lookup_insert_ne by done. intros H.
      pose proof (Hr n e H) as Hres. destruct (Hn _ _ Hres) as [_ Hlt].
      rewrite lookup_insert_ne by lia. done.
  - intros n e. rewrite stored_objs, stored_getObjects, stored_objects, built_self.
    cbn. destruct (decide (name = n)) as [->|Hne].
    + rewrite lookup_insert_eq. intros [= <-]. cbn.
      split; [apply elem_of_app; right; by apply list_elem_of_singleton|].
      split; [lia|]. rewrite lookup_insert_eq. eauto.
    + rewrite lookup_insert_ne by done. intros H.
      destruct (Ht n e H) as (H1 & H2 & c & Hc & Hg).
      split; [apply elem_of_app; by left|]. split; [lia|].
      exists c. split; [|done]. rewrite lookup_insert_ne by lia. done.
Qed.

Lemma add_object_bookkept b name mesh transform w :
  bookkept w → bookkept (snd (add_object b name mesh transform w)).
Proof.
  intros Hw. rewrite add_object_outcome. cbn zeta. case_bool_decide; [done|].
  destruct (_objs (self w) !! name); [destruct b|]; cbn [snd];
    auto using built_bookkept, stored_bookkept.
Qed.

Lemma placed_bookkept o t w : bookkept w → bookkept (placed o t w).
Proof.
  intros [Ha Hn Hr Ht]. split.
  - exact Ha.
  - exact Hn.
  - exact Hr.
  - intros n e H. rewrite placed_objs in H.
    destruct (Ht n e H) as (H1 & H2 & c & Hc & Hg).
    rewrite placed_getObjects. split; [done|]. split; [done|].
    rewrite placed_eq. cbn. destruct (decide (o = obj e)) as [->|Hne].
    + rewrite lookup_alter_eq, Hc. cbn. eauto.
    + rewrite lookup_alter_ne by done. eauto.
Qed.

(** Writes to the meshes and a stored transform for a registered name keep
    the bookkeeping. *)
Lemma moved_bookkept name t g w :
  is_Some (_objs (self w) !! name) →
  bookkept w →
  bookkept (with_self (with_applied_transforms <[name := t]>) (with_meshes g w)).
Proof.
  intros Hreg [Ha Hn Hr Ht]. split; cbn; [|done..].
  intros n. destruct (decide (name = n)) as [->|]; [done|].
  rewrite lookup_insert_ne by done. apply Ha.
Qed.

Lemma with_meshes_bookkept g w : bookkept w → bookkept (with_meshes g w).
Proof. intros [Ha Hn Hr Ht]. by split. Qed.

Lemma set_transform_bookkept name t relative w :
  bookkept w → bookkept (snd (set_transform name t relative w)).
Proof.
  intros Hw. destruct (_objs (self w) !! name) as [e|] eqn:He;
    [|by rewrite set_transform_unregistered].
  rewrite (set_transform_registered _ e) by done.
  destruct (new_pose _ _ _ _) as [t'|]; [|done]. cbn zeta.
  assert (is_Some (_objs (self (placed (obj e) t' w)) !! name)) as Hreg by eauto.
  destruct (_applied_transforms (self w) !! name) as [p|];
    [destruct (inv p)|]; cbn [snd].
  - apply (moved_bookkept name t' _ (with_meshes _ (placed (obj e) t' w)));
      [done|]. by apply with_meshes_bookkept, placed_bookkept.
  - by apply placed_bookkept.
  - apply moved_bookkept; [done|]. by apply placed_bookkept.
Qed.

Lemma get_object_world name w : snd (get_object name w) = w.
Proof.
  unfold get_object, bind, gets, ret. cbn. by destruct (_objs (self w) !! name).
Qed.

Lemma after_bookkept b c w : bookkept w → bookkept (after b c w).
Proof.
  intros Hw. destruct c as [n mesh tr|n t r|n|n| |cs bd]; unfold after.
  - by apply add_object_bookkept.
  - by apply set_transform_bookkept.
  - by rewrite get_transform_world.
  - by rewrite get_object_world.
  - done.
  - done.
Qed.

Lemma run_bookkept b calls w : bookkept w → bookkept (run b calls w).
Proof.
  revert w. induction calls as [|c calls IH]; intros w Hw; [done|].
  cbn. apply IH. by apply after_bookkept.
Qed.

(** X7.  In every world reached from a new manager, the geometry of each
    registered name resolves to that name, and every name that
    [_extract_name] returns is registered. *)
Theorem registered_geometry_resolves b ms margin calls :
  let w := run b calls (start ms margin) in
  (∀ n e, _objs (self w) !! n = Some e →
          _extract_name (self w) (geom e) = Some n) ∧
  (∀ g n, _extract_name (self w) g = Some n → is_Some (_objs (self w) !! n)).
Proof.
  cbn zeta. destruct (run_bookkept b calls _ (start_bookkept ms margin))
    as [Ha Hn Hr Ht].
  split.
  - intros n e He. by apply Hr.
  - intros g n Hg. by apply (Hn (id g) n).
Qed.

(** X8.  In every world reached from a new manager, the collision object
    of each registered name is registered with the tree and carries the
    geometry of the entry. *)
Theorem registered_shape_in_tree b ms margin calls :
  let w := run b calls (start ms margin) in
  ∀ n e, _objs (self w) !! n = Some e →
    obj e ∈ getObjects (_manager (self w)) ∧
    ∃ c, objects w !! obj e = Some c ∧ collisionGeometry c = geom e.
Proof.
  cbn zeta. destruct (run_bookkept b calls _ (start_bookkept ms margin))
    as [Ha Hn Hr Ht].
  intros n e He. destruct (Ht n e He) as (H1 & _ & H2). done.
Qed.

(** X9.  In every world reached from a new manager, only registered names
    have a stored transform: [get_transform] returns a matrix only for
    names that [add_object] registered. *)
Theorem transforms_only_for_registered b ms margin calls n :
  let w := run b calls (start ms margin) in
  (is_Some (_applied_transforms (self w) !! n) → is_Some (_objs (self w) !! n)) ∧
  (∀ t, fst (get_transform n w) = Return t →
        _applied_transforms (self w) !! n = Some t ∧ is_Some (_objs (self w) !! n)).
Proof.
  cbn zeta. destruct (run_bookkept b calls _ (start_bookkept ms margin))
    as [Ha Hn Hr Ht].
  split; [apply Ha|]. intros t.
  unfold get_transform, bind, gets, ret, raise. cbn.
  destruct (_objs (self (run b calls (start ms margin))) !! n) as [e|]; [|done].
  destruct (_applied_transforms (self (run b calls (start ms margin))) !! n);
    [|done].
  cbn. intros [= <-]. eauto.
Qed.

(** ** What no call removes *)

Lemma add_object_tree_grows b name mesh transform w :
  getObjects (_manager (self w)) `prefix_of`
  getObjects (_manager (self (snd (add_object b name mesh transform w)))).
Proof.
  rewrite add_object_outcome. cbn zeta. case_bool_decide; [done|].
  destruct (_objs (self w) !! name); [destruct b|]; cbn [snd];
    rewrite ?stored_getObjects, ?built_self; try done;
    by apply prefix_app_r.
Qed.

Lemma set_transform_getObjects name t relative w :
  getObjects (_manager (self (snd (set_transform name t relative w)))) =
  getObjects (_manager (self w)).
Proof.
  destruct (_objs (self w) !! name) as [e|] eqn:He;
    [|by rewrite set_transform_unregistered].
  rewrite (set_transform_registered _ e) by done.
  destruct (new_pose _ _ _ _) as [t'|]; [|done]. cbn zeta.
  destruct (_applied_transforms (self w) !! name) as [p|];
    [destruct (inv p)|]; cbn [snd]; apply placed_getObjects.
Qed.

Lemma after_keeps b c w n :
  (is_Some (_objs (self w) !! n) → is_Some (_objs (self (after b c w)) !! n)) ∧
  getObjects (_manager (self w)) `prefix_of`
  getObjects (_manager (self (after b c w))).
Proof.
  destruct c as [n' mesh tr|n' t r|n'|n'| |cs bd]; unfold after.
  - split; [apply add_object_keeps_registered | apply add_object_tree_grows].
  - by rewrite set_transform_objs, set_transform_getObjects.
  - by rewrite get_transform_world.
  - by rewrite get_object_world.
  - done.
  - done.
Qed.

(** X10.  No call removes anything: through every sequence of calls a
    registered name stays registered, and the tree keeps the objects it
    has, in their order (later objects are appended). *)
Theorem nothing_is_removed b calls w n :
  (is_Some (_objs (self w) !! n) →
   is_Some (_objs (self (run b calls w)) !! n)) ∧
  getObjects (_manager (self w)) `prefix_of`
  getObjects (_manager (self (run b calls w))).
Proof.
  revert w. induction calls as [|c calls IH]; intros w; [done|].
  cbn. destruct (IH (after b c w)) as [IH1 IH2].
  destruct (after_keeps b c w n) as [H1 H2]. split; [auto|].
  by etrans.
Qed.

(** With the binding that checks argument types, [add_object] on a
    registered name changes none of the manager's fields and no mesh. *)
Lemma add_object_rejected name mesh transform w :
  is_Some (_objs (self w) !! name) →
  self (snd (add_object true name mesh transform w)) = self w ∧
  meshes (snd (add_object true name mesh transform w)) = meshes w ∧
  fst (add_object true name mesh transform w) ≠ Return tt.
Proof.
  intros [e He]. rewrite add_object_outcome. cbn zeta. rewrite He.
  by case_bool_decide.
Qed.

Lemma add_object_other_entry b name mesh transform w n :
  n ≠ name →
  _objs (self (snd (add_object b name mesh transform w))) !! n =
  _objs (self w) !! n.
Proof.
  intros Hn. rewrite add_object_outcome. cbn zeta. case_bool_decide; [done|].
  destruct (_objs (self w) !! name); [destruct b|]; cbn [snd];
    rewrite ?stored_objs, ?built_self; try done; by rewrite lookup_insert_ne.
Qed.

(** X11.  With hppfcl's binding (argument types are checked) a registered
    object is never replaced: through every sequence of calls the entry of
    a registered name (collision object, geometry, mesh) stays the one of
    its first registration, and every later [add_object] on that name
    fails. *)
Theorem registered_entry_is_final calls w n e :
  _objs (self w) !! n = Some e →
  _objs (self (run true calls w)) !! n = Some e ∧
  ∀ mesh transform,
    fst (add_object true n mesh transform (run true calls w)) ≠ Return tt.
Proof.
  intros He.
  assert (_objs (self (run true calls w)) !! n = Some e) as Hrun.
  { revert w He. induction calls as [|c calls IH]; intros w He; [done|].
    cbn. apply IH.
    destruct c as [n' mesh tr|n' t r|n'|n'| |cs bd]; unfold after.
    - destruct (decide (n = n')) as [<-|Hne].
      + destruct (add_object_rejected n mesh tr w) as [-> _]; eauto.
      + by rewrite add_object_other_entry.
    - by rewrite set_transform_objs.
    - by rewrite get_transform_world.
    - by rewrite get_object_world.
    - done.
    - done. }
  split; [done|]. intros mesh transform.
  apply add_object_rejected. eauto.
Qed.

Lemma add_object_meshes b name msh transform w :
  meshes (snd (add_object b name msh transform w)) = meshes w.
Proof.
  rewrite add_object_outcome. cbn zeta. case_bool_decide; [done|].
  destruct (_objs (self w) !! name); [destruct b|]; done.
Qed.

(** ** One object and the others *)

Lemma get_object_value name w :
  get_object name w =
    (Return (match _objs (self w) !! name with
             | Some e => meshes w !! mesh e
             | None => None
             end), w).
Proof.
  unfold get_object, bind, gets, ret. cbn. by destruct (_objs (self w) !! name).
Qed.

(** X13.  [set_transform] on one name leaves another name alone when the
    two share neither the mesh nor the collision object: the other name's
    stored transform, its mesh and its engine object are as before. *)
Theorem set_transform_leaves_others name n e e' T relative w :
  _objs (self w) !! name = Some e →
  _objs (self w) !! n = Some e' →
  n ≠ name → mesh e' ≠ mesh e → obj e' ≠ obj e →
  let w' := snd (set_transform name T relative w) in
  _objs (self w') !! n = Some e' ∧
  _applied_transforms (self w') !! n = _applied_transforms (self w) !! n ∧
  meshes w' !! mesh e' = meshes w !! mesh e' ∧
  objects w' !! obj e' = objects w !! obj e' ∧
  fst (get_object n w') = fst (get_object n w).
Proof.
  intros He He' Hn Hmesh Hobj. cbn zeta.
  assert (meshes (snd (set_transform name T relative w)) !! mesh e' =
          meshes w !! mesh e' ∧
          objects (snd (set_transform name T relative w)) !! obj e' =
          objects w !! obj e') as [Hm Ho].
  { rewrite (set_transform_registered _ e) by done.
    destruct (new_pose _ _ _ _) as [t'|]; [|done]. cbn zeta.
    destruct (_applied_transforms (self w) !! name) as [p|];
      [destruct (inv p)|]; cbn [snd]; rewrite placed_eq; cbn;
      rewrite ?lookup_alter_ne by done; done. }
  rewrite set_transform_objs.
  split; [done|]. split; [by apply set_transform_applied_other|].
  split; [done|]. split; [done|].
  rewrite !get_object_value. cbn [fst].
  by rewrite set_transform_objs, He', Hm.
Qed.

(** X14.  Meshes are stored by reference and moved in place.  When two
    names were registered with the same mesh object, a [set_transform] on
    one of them moves the mesh that [get_object] returns for the other,
    whose stored transform does not change. *)
Theorem shared_mesh_moves_with_other a b ea eb m T w :
  a ≠ b →
  _objs (self w) !! a = Some ea →
  _objs (self w) !! b = Some eb →
  mesh ea = mesh eb →
  meshes w !! mesh ea = Some m →
  _applied_transforms (self w) !! a = None →
  let w' := snd (set_transform a T false w) in
  fst (set_transform a T false w) = Return tt ∧
  get_object b w' = (Return (Some (apply_transform T m)), w') ∧
  _applied_transforms (self w') !! b = _applied_transforms (self w) !! b.
Proof.
  intros Hab Ha Hb Hshare Hm Hnone. cbn zeta.
  split; [|split].
  - rewrite (set_transform_registered _ ea) by done. cbn. by rewrite Hnone.
  - rewrite get_object_value, set_transform_objs, Hb. f_equal. f_equal.
    rewrite (set_transform_registered _ ea) by done. cbn. rewrite Hnone. cbn.
    by rewrite <- Hshare, lookup_alter_eq, Hm.
  - by apply set_transform_applied_other.
Qed.

(** ** What [get_collision_pairs] returns *)

Lemma not_is_Some_None {A} (o : option A) : ¬ is_Some o → o = None.
Proof. destruct o; [intros H; exfalso; apply H; eauto|done]. Qed.

(** The unidirectional loop from a dictionary [acc]: nothing of [acc] is
    lost, one entry is added per contact, and nothing else. *)
Lemma resolve_unidirectional s contacts acc d :
  resolve_contacts s false contacts acc = Return d →
  acc ⊆ d ∧
  size d = (size acc + length contacts)%nat ∧
  (∀ c, c ∈ contacts →
     ∃ k, contact_key s c = Some k ∧
          d !! k = Some (getNearestPoint1 c, getNearestPoint2 c)) ∧
  (∀ k v, d !! k = Some v →
     acc !! k = Some v ∨
     ∃ c, c ∈ contacts ∧ contact_key s c = Some k ∧
          v = (getNearestPoint1 c, getNearestPoint2 c)).
Proof.
  revert acc. induction contacts as [|c0 rest IH]; intros acc.
  - cbn. intros [= <-]. split; [done|]. split; [lia|]. split.
    + intros c Hc. by apply elem_of_nil in Hc.
    + intros k v Hk. by left.
  - rewrite resolve_contacts_cons.
    destruct (contact_key s c0) as [k0|] eqn:Hk0; [|done].
    case_bool_decide as Hd; [done|]. apply not_is_Some_None in Hd.
    cbn zeta. intros Hret. destruct (IH _ Hret) as (Hsub & Hsize & Hall & Honly).
    split; [|split; [|split]].
    + etrans; [|exact Hsub]. by apply insert_subseteq.
    + rewrite Hsize, map_size_insert_None by done. cbn. lia.
    + intros c [->|Hc]%elem_of_cons; [|by apply Hall].
      exists k0. split; [done|].
      eapply lookup_weaken; [|exact Hsub]. apply lookup_insert_eq.
    + intros k v Hk. destruct (Honly k v Hk) as [Hacc|(c & Hc & Hkc & Hv)].
      * destruct (decide (k0 = k)) as [->|Hne].
        -- rewrite lookup_insert_eq in Hacc. injection Hacc as <-.
           right. exists c0. split; [left|done].
        -- rewrite lookup_insert_ne in Hacc by done. by left.
      * right. exists c. split; [by right|done].
Qed.

(** X15.  A unidirectional [get_collision_pairs] that returns loses and
    merges nothing: the dictionary has one entry per contact, every contact
    is found under its key with its two nearest points, and every entry
    comes from a contact of the list. *)
Theorem unidirectional_pairs contacts w d :
  fst (get_collision_pairs contacts false w) = Return d →
  size d = length contacts ∧
  (∀ c, c ∈ contacts →
     ∃ k, contact_key (self w) c = Some k ∧
          d !! k = Some (getNearestPoint1 c, getNearestPoint2 c)) ∧
  (∀ k v, d !! k = Some v →
     ∃ c, c ∈ contacts ∧ contact_key (self w) c = Some k ∧
          v = (getNearestPoint1 c, getNearestPoint2 c)).
Proof.
  unfold get_collision_pairs. cbn [fst]. intros Hret.
  destruct (resolve_unidirectional _ _ _ _ Hret) as (_ & Hsize & Hall & Honly).
  split; [by rewrite Hsize, map_size_empty|]. split; [done|].
  intros k v Hk. destruct (Honly k v Hk) as [Hacc|H]; [|done].
  by rewrite lookup_empty in Hacc.
Qed.

Lemma resolve_unidirectional_returns s contacts acc :
  (∃ d, resolve_contacts s false contacts acc = Return d) ↔
  Forall (λ c, is_Some (contact_key s c)) contacts ∧
  NoDup (omap (contact_key s) contacts) ∧
  (∀ k, k ∈ omap (contact_key s) contacts → acc !! k = None).
Proof.
  revert acc. induction contacts as [|c0 rest IH]; intros acc.
  - cbn. split; [|eauto]. intros _. split; [constructor|]. split; [constructor|].
    intros k Hk. by apply elem_of_nil in Hk.
  - rewrite resolve_contacts_cons. cbn [omap list_omap].
    destruct (contact_key s c0) as [k0|] eqn:Hk0.
    + case_bool_decide as Hd.
      * split; [by intros [d Hd']|]. intros (_ & _ & Hfree).
        exfalso. destruct Hd as [v Hv]. rewrite Hfree in Hv; [done|left].
      * apply not_is_Some_None in Hd. cbn zeta. rewrite IH. split.
        -- intros (Hall & Hnd & Hfree). split; [constructor; eauto|].
           split.
           ++ apply NoDup_cons. split; [|done]. intros Hin.
              specialize (Hfree k0 Hin). by rewrite lookup_insert_eq in Hfree.
           ++ intros k [->|Hin]%elem_of_cons; [done|].
              specialize (Hfree k Hin).
              by apply lookup_insert_None in Hfree as [? _].
        -- intros (Hall & Hnd & Hfree).
           apply Forall_cons in Hall as [_ Hall].
           apply NoDup_cons in Hnd as [Hnotin Hnd].
           split; [done|]. split; [done|]. intros k Hin.
           apply lookup_insert_None. split; [apply Hfree; by right|].
           intros ->. done.
    + split; [by intros [d Hd']|]. intros (Hall & _).
      apply Forall_cons in Hall as [[k Hk] _]. congruence.
Qed.

(** X16.  A unidirectional [get_collision_pairs] returns a dictionary
    exactly when every contact resolves and no two contacts have the same
    key; in every other case it raises. *)
Theorem unidirectional_returns_iff contacts w :
  (∃ d, fst (get_collision_pairs contacts false w) = Return d) ↔
  Forall (λ c, is_Some (contact_key (self w) c)) contacts ∧
  NoDup (omap (contact_key (self w)) contacts).
Proof.
  unfold get_collision_pairs. cbn [fst]. rewrite resolve_unidirectional_returns.
  split; [intros (H1 & H2 & _); done|]. intros [H1 H2].
  split; [done|]. split; [done|]. intros k _. apply lookup_empty.
Qed.

(** X17.  In bidirectional mode a contact pair that is reported in both
    orders is refused: when a later contact has the mirrored key of an
    earlier one (same two triangles, objects swapped), the call raises,
    although the two keys differ. *)
Theorem both_orders_raise contacts w i j ci cj k :
  (i < j)%nat →
  contacts !! i = Some ci → contacts !! j = Some cj →
  contact_key (self w) ci = Some k →
  contact_key (self w) cj = Some (mirror k) →
  ∃ e, get_collision_pairs contacts true w = (Raise e, w) ∧
       consistency_error e.
Proof.
  intros Hij Hi Hj Hki Hkj. unfold get_collision_pairs.
  assert (∀ acc, ∃ e, resolve_contacts (self w) true contacts acc = Raise e)
    as Hraise.
  { clear -Hij Hi Hj Hki Hkj. revert i j Hij Hi Hj.
    induction contacts as [|c0 rest IH]; intros i j Hij Hi Hj acc; [done|].
    rewrite resolve_contacts_cons.
    destruct (contact_key (self w) c0) as [k0|] eqn:Hk0; [|eauto].
    case_bool_decide; [eauto|].
    destruct j as [|j]; [lia|]. cbn in Hj. destruct i as [|i].
    - injection Hi as ->. assert (k0 = k) as -> by congruence.
      apply (resolve_contacts_present _ _ _ _ cj (mirror k)); [|done|].
      + by eapply list_elem_of_lookup_2.
      + cbn zeta. rewrite lookup_insert_eq. eauto.
    - cbn in Hi. apply (IH i j); [lia|done|done]. }
  destruct (Hraise ∅) as [e He]. exists e. rewrite He. split; [done|].
  by eapply resolve_contacts_errors.
Qed.

(** The bidirectional loop from a dictionary [acc] that has the mirroring:
    nothing of [acc] is lost, each contact adds one or two entries, and
    each contact is found under its mirrored key with the points swapped,
    and under its own key unless that is the same key. *)
Lemma resolve_bidirectional s contacts acc d :
  mirrored_apart acc →
  resolve_contacts s true contacts acc = Return d →
  acc ⊆ d ∧
  (size acc + length contacts ≤ size d ≤ size acc + 2 * length contacts)%nat ∧
  (∀ c, c ∈ contacts →
     ∃ k, contact_key s c = Some k ∧
          d !! mirror k = Some (getNearestPoint2 c, getNearestPoint1 c) ∧
          (k ≠ mirror k →
           d !! k = Some (getNearestPoint1 c, getNearestPoint2 c))).
Proof.
  revert acc. induction contacts as [|c0 rest IH]; intros acc Hacc.
  - cbn. intros [= <-]. split; [done|]. split; [lia|].
    intros c Hc. by apply elem_of_nil in Hc.
  - rewrite resolve_contacts_cons.
    destruct (contact_key s c0) as [k0|] eqn:Hk0; [|done].
    case_bool_decide as Hd; [done|]. apply not_is_Some_None in Hd.
    cbn zeta. intros Hret.
    assert (acc !! mirror k0 = None) as Hm0.
    { destruct (acc !! mirror k0) as [[qA qB]|] eqn:Hq; [|done].
      destruct (Hacc _ _ _ Hq) as [[v Hv] _].
      rewrite mirror_involutive in Hv. congruence. }
    set (p1 := getNearestPoint1 c0) in *. set (p2 := getNearestPoint2 c0) in *.
    destruct (IH _ (mirrored_apart_turn acc k0 p1 p2 Hacc Hd) Hret)
      as (Hsub & Hsize & Hall).
    split; [|split].
    + etrans; [|exact Hsub].
      apply insert_subseteq_r; [done|]. by apply insert_subseteq.
    + cbn [length].
      assert (S (size acc) ≤ size (<[mirror k0:=(p2, p1)]> (<[k0:=(p1, p2)]> acc))
              ≤ S (S (size acc)))%nat as Hturn.
      { rewrite map_size_insert.
        rewrite (map_size_insert_None k0 (p1, p2) acc) by done.
        destruct (<[k0:=(p1, p2)]> acc !! mirror k0);
          unfold Datatypes.id; lia. }
      lia.
    + intros c [->|Hc]%elem_of_cons; [|by apply Hall].
      exists k0. split; [done|]. split.
      * eapply lookup_weaken; [|exact Hsub]. apply lookup_insert_eq.
      * intros Hne. eapply lookup_weaken; [|exact Hsub].
        rewrite lookup_insert_ne by done. apply lookup_insert_eq.
Qed.

(** X18.  A bidirectional [get_collision_pairs] that returns holds, for
    every contact, the mirrored key with the two nearest points swapped,
    and the contact's own key with the points in order unless the key is
    its own mirror; the dictionary has at least one and at most two
    entries per contact. *)
Theorem bidirectional_pairs contacts w d :
  fst (get_collision_pairs contacts true w) = Return d →
  (length contacts ≤ size d ≤ 2 * length contacts)%nat ∧
  (∀ c, c ∈ contacts →
     ∃ k, contact_key (self w) c = Some k ∧
          d !! mirror k = Some (getNearestPoint2 c, getNearestPoint1 c) ∧
          (k ≠ mirror k →
           d !! k = Some (getNearestPoint1 c, getNearestPoint2 c))).
Proof.
  unfold get_collision_pairs. cbn [fst]. intros Hret.
  assert (mirrored_apart (∅ : gmap pair_key pair_points)) as Hempty.
  { intros k ? ? Hk. by rewrite lookup_empty in Hk. }
  destruct (resolve_bidirectional _ _ _ _ Hempty Hret) as (_ & Hsize & Hall).
  rewrite map_size_empty in Hsize. split; [lia|done].
Qed.

(** X19.  Contacts are named after the registered objects.  In every
    world reached from a new manager, a contact between the geometries of
    two registered names is stored under those two names and its two
    triangle indices, with its two nearest points. *)
Theorem contact_of_registered_is_named b ms margin calls nA nB eA eB c :
  let w := run b calls (start ms margin) in
  _objs (self w) !! nA = Some eA →
  _objs (self w) !! nB = Some eB →
  o1 c = geom eA → o2 c = geom eB →
  get_collision_pairs [c] false w =
    (Return {[ (nA, nB, b1 c, b2 c) := (getNearestPoint1 c, getNearestPoint2 c) ]},
     w).
Proof.
  cbn zeta. intros HA HB H1 H2.
  destruct (run_bookkept b calls _ (start_bookkept ms margin)) as [_ _ Hr _].
  unfold get_collision_pairs. f_equal. rewrite resolve_contacts_cons.
  unfold contact_key, _extract_name. rewrite H1, H2.
  rewrite (Hr nA eA HA), (Hr nB eB HB).
  rewrite bool_decide_eq_false_2; [done|].
  rewrite lookup_empty. by intros [? ?].
Qed.

(** ** The data of [visualize_contacts] *)

Lemma add_face_NoDup b l : NoDup l → NoDup (add_face b l).
Proof.
  intros Hl. unfold add_face. case_bool_decide as Hb; [done|].
  apply NoDup_app. split; [done|]. split; [|apply NoDup_singleton].
  intros x Hx ->%list_elem_of_singleton. done.
Qed.

Lemma elem_of_add_face x b l : x ∈ add_face b l ↔ x = b ∨ x ∈ l.
Proof.
  unfold add_face. case_bool_decide as Hb.
  - split; [auto|]. intros [->|]; done.
  - rewrite elem_of_app, list_elem_of_singleton. tauto.
Qed.

Lemma mark_face_Found n b (f : gmap string (list Z)) l :
  f !! n = Some l →
  mark_face (Some n) b f = Found (<[n := add_face b l]> f).
Proof.
  intros Hl. unfold mark_face, add_face. rewrite Hl.
  case_bool_decide; [|done]. by rewrite insert_id.
Qed.

Lemma touch_NoDup s n c l : NoDup l → NoDup (touch s n c l).
Proof.
  intros Hl. unfold touch. repeat case_bool_decide; auto using add_face_NoDup.
Qed.

Lemma elem_of_touch s n c l x :
  x ∈ touch s n c l ↔ x ∈ l ∨ involves s n c x.
Proof.
  unfold touch, involves.
  destruct (decide (_extract_name s (o1 c) = Some n)) as [E1|E1];
    destruct (decide (_extract_name s (o2 c) = Some n)) as [E2|E2];
    rewrite ?(bool_decide_eq_true_2 _ E1), ?(bool_decide_eq_false_2 _ E1),
      ?(bool_decide_eq_true_2 _ E2), ?(bool_decide_eq_false_2 _ E2),
      ?elem_of_add_face;
    intuition congruence.
Qed.

Lemma view_contacts_unfold s c rest v :
  view_contacts s (c :: rest) v =
    match mark_face (_extract_name s (o1 c)) (b1 c) (faces_in_collision v) with
    | KeyErrorAt k => KeyErrorAt k
    | Found f1 =>
        match mark_face (_extract_name s (o2 c)) (b2 c) f1 with
        | KeyErrorAt k => KeyErrorAt k
        | Found f2 =>
            view_contacts s rest
              (View f2 (pts v ++ [getNearestPoint1 c; getNearestPoint2 c])
                 (ray_origins v ++ [pos c]) (ray_directions v ++ [normal c]))
        end
    end.
Proof. reflexivity. Qed.

Lemma mark_face_inv name b (f f' : gmap string (list Z)) :
  mark_face name b f = Found f' →
  ∃ n l, name = Some n ∧ f !! n = Some l ∧ f' = <[n := add_face b l]> f.
Proof.
  destruct name as [n|]; [|done]. destruct (f !! n) as [l|] eqn:Hl.
  - rewrite (mark_face_Found n b f l Hl). intros [= <-]. eauto.
  - unfold mark_face. by rewrite Hl.
Qed.

(** One turn of the loop, when it goes through. *)
Lemma view_contacts_cons s c rest v v' :
  view_contacts s (c :: rest) v = Found v' →
  ∃ f2,
    (∀ n, f2 !! n = touch s n c <$> faces_in_collision v !! n) ∧
    view_contacts s rest
      (View f2 (pts v ++ [getNearestPoint1 c; getNearestPoint2 c])
         (ray_origins v ++ [pos c]) (ray_directions v ++ [normal c])) = Found v'.
Proof.
  rewrite view_contacts_unfold.
  destruct (mark_face (_extract_name s (o1 c)) (b1 c) (faces_in_collision v))
    as [f1|] eqn:Hf1; [|done].
  destruct (mark_face (_extract_name s (o2 c)) (b2 c) f1) as [f2|] eqn:Hf2;
    [|done].
  intros Hrest. exists f2. split; [|done].
  apply mark_face_inv in Hf1 as (n1 & l1 & H1 & Hl1 & ->).
  apply mark_face_inv in Hf2 as (n2 & l2 & H2 & Hl2 & ->).
  intros n. unfold touch. rewrite H1, H2.
  destruct (decide (n = n2)) as [->|Hn2].
  - rewrite lookup_insert_eq, (bool_decide_eq_true_2 (Some n2 = Some n2)) by done.
    destruct (decide (n1 = n2)) as [->|Hn1].
    + rewrite lookup_insert_eq in Hl2. injection Hl2 as <-.
      rewrite Hl1, bool_decide_eq_true_2 by done. done.
    + rewrite lookup_insert_ne in Hl2 by done. rewrite Hl2.
      rewrite bool_decide_eq_false_2 by congruence. done.
  - rewrite lookup_insert_ne by done.
    rewrite (bool_decide_eq_false_2 (Some n2 = Some n)) by congruence.
    destruct (decide (n = n1)) as [->|Hn1].
    + rewrite lookup_insert_eq, Hl1, bool_decide_eq_true_2 by done. done.
    + rewrite lookup_insert_ne by done.
      rewrite bool_decide_eq_false_2 by congruence.
      by destruct (faces_in_collision v !! n).
Qed.

Lemma fold_touch_NoDup s n contacts l :
  NoDup l → NoDup (foldl (λ l c, touch s n c l) l contacts).
Proof.
  revert l. induction contacts as [|c rest IH]; intros l Hl; [done|].
  cbn. apply IH. by apply touch_NoDup.
Qed.

Lemma elem_of_fold_touch s n contacts l x :
  x ∈ foldl (λ l c, touch s n c l) l contacts ↔
  x ∈ l ∨ ∃ c, c ∈ contacts ∧ involves s n c x.
Proof.
  revert l. induction contacts as [|c rest IH]; intros l; cbn.
  - split; [auto|]. intros [H|(c & Hc & _)]; [done|].
    by apply elem_of_nil in Hc.
  - rewrite IH, elem_of_touch. split.
    + intros [[H|H]|(c' & Hc' & H)]; [by left| |].
      * right. exists c. split; [left|done].
      * right. exists c'. split; [by right|done].
    + intros [H|(c' & [->|Hc']%elem_of_cons & H)].
      * left. by left.
      * left. by right.
      * right. by exists c'.
Qed.

(** The loop from the local variables [v], when it goes through. *)
Lemma view_contacts_Found s contacts v v' :
  view_contacts s contacts v = Found v' →
  (∀ n, faces_in_collision v' !! n =
        (λ l, foldl (λ l c, touch s n c l) l contacts) <$>
        faces_in_collision v !! n) ∧
  pts v' =
    pts v ++ concat ((λ c, [getNearestPoint1 c; getNearestPoint2 c]) <$> contacts) ∧
  ray_origins v' = ray_origins v ++ (pos <$> contacts) ∧
  ray_directions v' = ray_directions v ++ (normal <$> contacts).
Proof.
  revert v. induction contacts as [|c rest IH]; intros v.
  - cbn. intros [= <-]. rewrite !app_nil_r. split; [|done].
    intros n. by destruct (faces_in_collision v !! n).
  - intros (f2 & Hf2 & Hrest)%view_contacts_cons.
    destruct (IH _ Hrest) as (Hfaces & Hpts & Hor & Hdir). cbn in *.
    split; [|split; [|split]].
    + intros n. rewrite Hfaces, Hf2.
      by destruct (faces_in_collision v !! n).
    + by rewrite Hpts, <- app_assoc.
    + by rewrite Hor, <- app_assoc.
    + by rewrite Hdir, <- app_assoc.
Qed.

(** X20.  The data that [visualize_contacts] collects, when its loop goes
    through: a list of faces for exactly the registered names; each list
    without repetition, holding exactly the triangles of that name that
    take part in some contact of the list; two points and one ray per
    contact, in the order of the contacts. *)
Theorem visualize_contacts_faces contacts w v :
  visualize_contacts_data contacts w = Found v →
  (∀ n, is_Some (faces_in_collision v !! n) ↔ is_Some (_objs (self w) !! n)) ∧
  (∀ n l, faces_in_collision v !! n = Some l →
     NoDup l ∧
     ∀ b, b ∈ l ↔ ∃ c, c ∈ contacts ∧ involves (self w) n c b) ∧
  pts v = concat ((λ c, [getNearestPoint1 c; getNearestPoint2 c]) <$> contacts) ∧
  ray_origins v = pos <$> contacts ∧
  ray_directions v = normal <$> contacts.
Proof.
  unfold visualize_contacts_data.
  intros (Hfaces & Hpts & Hor & Hdir)%view_contacts_Found. cbn in *.
  split; [|split; [|done]].
  - intros n. rewrite Hfaces, lookup_fmap.
    by rewrite !fmap_is_Some.
  - intros n l. rewrite Hfaces, lookup_fmap.
    destruct (_objs (self w) !! n); [|done]. cbn. intros [= <-].
    split; [apply fold_touch_NoDup, NoDup_nil_2|].
    intros b. rewrite elem_of_fold_touch. split; [|auto].
    intros [H|H]; [by apply elem_of_nil in H|done].
Qed.

Lemma view_contacts_outcome s contacts v :
  (∀ g n, _extract_name s g = Some n → is_Some (faces_in_collision v !! n)) →
  (Forall (λ c, is_Some (contact_key s c)) contacts →
   ∃ v', view_contacts s contacts v = Found v') ∧
  (Exists (λ c, contact_key s c = None) contacts →
   view_contacts s contacts v = KeyErrorAt None).
Proof.
  revert v. induction contacts as [|c rest IH]; intros v Hkeys.
  - split; [eauto|]. intros H. by apply Exists_nil in H.
  - rewrite view_contacts_unfold. unfold contact_key.
    destruct (_extract_name s (o1 c)) as [n1|] eqn:H1.
    + destruct (Hkeys _ _ H1) as [l1 Hl1].
      rewrite (mark_face_Found n1 (b1 c) _ l1 Hl1).
      destruct (_extract_name s (o2 c)) as [n2|] eqn:H2.
      * set (f1 := <[n1 := add_face (b1 c) l1]> (faces_in_collision v)).
        assert (∀ g n, _extract_name s g = Some n → is_Some (f1 !! n)) as Hk1.
        { intros g n Hg. unfold f1. destruct (decide (n1 = n)) as [->|];
            [rewrite lookup_insert_eq; eauto
            |rewrite lookup_insert_ne by done; eauto]. }
        destruct (Hk1 _ _ H2) as [l2 Hl2].
        rewrite (mark_face_Found n2 (b2 c) _ l2 Hl2).
        set (v2 := View _ _ _ _).
        destruct (IH v2) as [IH1 IH2].
        { intros g n Hg. unfold v2. cbn.
          destruct (decide (n2 = n)) as [->|];
            [rewrite lookup_insert_eq; eauto
            |rewrite lookup_insert_ne by done; eauto]. }
        split.
        -- intros [_ Hall]%Forall_cons. auto.
        -- intros [Hc|Hrest]%Exists_cons; [|auto].
           cbn in Hc. by rewrite H1, H2 in Hc.
      * split; [|done]. intros [[k Hk] _]%Forall_cons.
        cbn in Hk. by rewrite H1, H2 in Hk.
    + split; [|done]. intros [[k Hk] _]%Forall_cons.
      cbn in Hk. by rewrite H1 in Hk.
Qed.

(** X21.  The outcome of the loop of [visualize_contacts], in every world
    reached from a new manager: when every contact resolves the loop goes
    through; when some contact has a geometry that is not recorded it
    raises [KeyError(None)] at the lookup [faces_in_collision[None]] (where
    [get_collision_pairs] raises [AssertionError]). *)
Theorem visualize_contacts_outcome b ms margin calls contacts :
  let w := run b calls (start ms margin) in
  (Forall (λ c, is_Some (contact_key (self w) c)) contacts →
   ∃ v, visualize_contacts_data contacts w = Found v) ∧
  (Exists (λ c, contact_key (self w) c = None) contacts →
   visualize_contacts_data contacts w = KeyErrorAt None).
Proof.
  cbn zeta. unfold visualize_contacts_data. apply view_contacts_outcome.
  destruct (run_bookkept b calls _ (start_bookkept ms margin)) as [_ Hn _ _].
  intros g n Hg. cbn. rewrite lookup_fmap, fmap_is_Some.
  by apply (Hn (id g) n).
Qed.

(** ** Registration and retrieval *)

(** X22.  [add_object] followed by [get_object] is a round trip: when
    [add_object] returns, [get_object] on the name returns the mesh as the
    caller holds it, whatever initial transform was supplied; the geometry
    stored for the name was built from the vertices and faces of that
    mesh and resolves to the name; and [get_object] on every other name
    returns what it returned before. *)
Theorem add_object_then_get_object b name msh transform w m :
  meshes w !! msh = Some m →
  fst (add_object b name msh transform w) = Return tt →
  let w' := snd (add_object b name msh transform w) in
  get_object name w' = (Return (Some m), w') ∧
  (∃ e, _objs (self w') !! name = Some e ∧ mesh e = msh ∧
        bvh_vertices (geom e) = vertices m ∧
        bvh_triangles (geom e) = faces m ∧
        _extract_name (self w') (geom e) = Some name) ∧
  ∀ n, n ≠ name → fst (get_object n w') = fst (get_object n w).
Proof.
  intros Hm Hret. cbn zeta.
  destruct (add_object_new_shape b name msh transform w Hret) as (He & _ & Hms).
  cbn zeta in He, Hms. split; [|split].
  - rewrite get_object_value, He, Hms. cbn. by rewrite Hm.
  - exists (new_entry msh w). split; [done|].
    assert (_extract_name (self (snd (add_object b name msh transform w)))
              (geom (new_entry msh w)) = Some name) as Hx.
    { revert Hret. rewrite !add_object_outcome. cbn zeta.
      case_bool_decide; [done|].
      destruct (_objs (self w) !! name); [destruct b|]; try done; intros _;
        cbn [snd]; unfold _extract_name; rewrite stored_names;
        apply lookup_insert_eq. }
    split; [done|]. split; [|split; [|exact Hx]].
    + unfold new_entry. cbn. by rewrite Hm.
    + unfold new_entry. cbn. by rewrite Hm.
  - intros n Hn. rewrite !get_object_value. cbn [fst].
    by rewrite add_object_other_entry, Hms.
Qed.

End General.

(** * The properties at concrete scenes, with the reference implementation *)

(** Two binary64 numbers that the comparison with [c] tells apart are not
    equal. *)
Ltac float_differ H c :=
  apply (f_equal (λ x : float, x =? c)) in H; vm_compute in H; discriminate H.

Lemma never_moved_witness :
  get_transform "a"
    (run true [AddObject "a" 1%positive (Some (of_mat4 (translation 1 0 0)))]
       (start {[1%positive := tetrahedron]} 0)) =
  (Raise (KeyError "a"),
   run true [AddObject "a" 1%positive (Some (of_mat4 (translation 1 0 0)))]
     (start {[1%positive := tetrahedron]} 0)).
Proof.
  refine (proj1 (never_moved_raises_KeyError true {[1%positive := tetrahedron]} 0
    [AddObject "a" 1%positive (Some (of_mat4 (translation 1 0 0)))] "a" _ _)).
  - intros t r H. apply list_elem_of_singleton in H. discriminate H.
  - vm_compute. eexists. reflexivity.
Defined.

(** C5, at the input where it fails.  A registered name for which
    [get_transform] returns no transform: after [add_object("a", mesh)]
    the call raises [KeyError]. *)
Theorem get_transform_registered_raises b :
  let w := snd (add_object b "a" 1%positive None (start {[1%positive := tetrahedron]} 0)) in
  fst (add_object b "a" 1%positive None (start {[1%positive := tetrahedron]} 0)) = Return tt ∧
  is_Some (_objs (self w) !! "a") ∧
  get_transform "a" w = (Raise (KeyError "a"), w).
Proof. destruct b; vm_compute; (split; [done|split; [eauto|done]]). Qed.

(** C8, as it is stated, fails for a mesh that lies in a plane.  With the
    transform omitted, on a new manager, the call raises: the box of the
    shape has no volume and [update()] rejects it with a [ValueError].
    The name is in the registry and the shape in the tree by then. *)
Lemma planar_mesh_raises :
  fst (add_object true "a" 1%positive None (start {[1%positive := triangle]} 0)) =
    Raise bounding_volume_error ∧
  _objs (self (snd (add_object true "a" 1%positive None
                      (start {[1%positive := triangle]} 0)))) !! "a" =
    Some (Entry 2%positive (BVH 1%positive (vertices triangle) (faces triangle))
            1%positive) ∧
  getObjects (_manager (self (snd (add_object true "a" 1%positive None
                                     (start {[1%positive := triangle]} 0))))) =
    [2%positive].
Proof. vm_compute. done. Qed.

Lemma readd_keeps_applied_transform_witness :
  _objs (self (snd (add_object true "a" 2%positive
                      (Some (of_mat4 (translation 0 1 0)))
                      (run true [AddObject "a" 1%positive None;
                                 SetTransform "a" (translation 1 0 0) false]
                         (start {[1%positive := tetrahedron;
                                  2%positive := small_tetrahedron]} 0)))))
    !! "a" = Some (Entry 2%positive geom_a 1%positive).
Proof.
  refine (proj1 (proj2 (proj2 (proj2 (readd_keeps_applied_transform "a"
    (Entry 2%positive geom_a 1%positive) 2%positive
    (Some (of_mat4 (translation 0 1 0))) _ (translation 1 0 0) _ _))))).
  - vm_compute. reflexivity.
  - vm_compute. reflexivity.
Defined.

Lemma unresolved_contact_raises_witness :
  ∃ e, get_collision_pairs
         [contact_of geom_a geom_a 0 1 (V3 0 0 0) (V3 1 0 0);
          contact_of geom_a geom_unknown 0 0 (V3 0 0 0) (V3 0 0 0)]
         false (scene_a true) = (Raise e, scene_a true) ∧
       consistency_error e.
Proof.
  apply (unresolved_contact_raises _ false (scene_a true)
           (contact_of geom_a geom_unknown 0 0 (V3 0 0 0) (V3 0 0 0))).
  - right. left.
  - right. vm_compute. reflexivity.
Defined.

Lemma repeated_key_raises_witness :
  ∃ e, get_collision_pairs
         [contact_of geom_a geom_a 0 1 (V3 0 0 0) (V3 1 0 0);
          contact_of geom_a geom_a 0 1 (V3 0 1 0) (V3 1 0 0)]
         false (scene_a true) = (Raise e, scene_a true) ∧
       consistency_error e ∧
       (Forall (λ c, is_Some (contact_key (self (scene_a true)) c))
          [contact_of geom_a geom_a 0 1 (V3 0 0 0) (V3 1 0 0);
           contact_of geom_a geom_a 0 1 (V3 0 1 0) (V3 1 0 0)] →
        e = RuntimeWarning "conflicting contact pairs!").
Proof.
  apply (repeated_key_raises _ false (scene_a true) 0 1
           (contact_of geom_a geom_a 0 1 (V3 0 0 0) (V3 1 0 0))
           (contact_of geom_a geom_a 0 1 (V3 0 1 0) (V3 1 0 0))
           ("a", "a", 0%Z, 1%Z)).
  - lia.
  - reflexivity.
  - reflexivity.
  - vm_compute. reflexivity.
  - vm_compute. reflexivity.
Defined.

Lemma bidirectional_mirrored_apart_witness :
  let d : gmap pair_key pair_points :=
    {[ ("a", "a", 0%Z, 1%Z) := (V3 0 0 0, V3 1 0 0);
       ("a", "a", 1%Z, 0%Z) := (V3 1 0 0, V3 0 0 0) ]} in
  is_Some (d !! ("a", "a", 1%Z, 0%Z)) ∧
  (("a", 0%Z) ≠ ("a", 1%Z) → d !! ("a", "a", 1%Z, 0%Z) = Some (V3 1 0 0, V3 0 0 0)).
Proof.
  apply (bidirectional_mirrored_apart
           [contact_of geom_a geom_a 0 1 (V3 0 0 0) (V3 1 0 0)] (scene_a true)).
  - vm_compute. reflexivity.
  - vm_compute. reflexivity.
Defined.

(** C10, as it is stated, fails for a contact of a triangle with itself:
    its key is its own mirror, the only entry holds the points in the order
    (second, first), and the swapped pair is not what the key maps to. *)
Lemma self_contact_not_mirrored :
  ∃ d, fst (get_collision_pairs
              [contact_of geom_a geom_a 0 0 (V3 0 0 0) (V3 1 0 0)]
              true (scene_a true)) = Return d ∧
       d !! ("a", "a", 0%Z, 0%Z) = Some (V3 1 0 0, V3 0 0 0) ∧
       ¬ mirrored d.
Proof.
  exists {[ ("a", "a", 0%Z, 0%Z) := (V3 1 0 0, V3 0 0 0) ]}.
  split; [vm_compute; reflexivity|]. split; [vm_compute; reflexivity|].
  intros H. specialize (H ("a", "a", 0%Z, 0%Z) (V3 1 0 0) (V3 0 0 0)).
  cbn [mirror] in H. rewrite lookup_singleton_eq in H.
  specialize (H eq_refl).
  apply (f_equal (from_option (λ pq : pair_points, vx (fst pq)) 0)) in H.
  cbn in H. float_differ H 0.
Qed.

Lemma relative_composition_law_witness :
  get_transform "a"
    (snd (set_transform "a" (translation 0 1 0) true
            (snd (set_transform "a" (translation 1 0 0) false (scene_lifted true))))) =
  (Return (translation 0 1 0 @@ translation 1 0 0),
   snd (set_transform "a" (translation 0 1 0) true
          (snd (set_transform "a" (translation 1 0 0) false (scene_lifted true))))).
Proof.
  refine (proj1 (proj2 (proj2 (proj2 (relative_composition_law "a"
    (Entry 2%positive geom_a 1%positive) (translation 1 0 0) (translation (-1) 0 0)
    (translation 0 1 0) (scene_lifted true) _ _ _))))).
  - vm_compute. reflexivity.
  - vm_compute. reflexivity.
  - intros p H. vm_compute in H. injection H as <-. vm_compute. eauto.
Defined.

(** C2, as it is stated, fails in two ways.  In binary64 the undo step
    does not restore the vertices: for the small tetrahedron, after the
    absolute call with the translation by (1,0,0) and the relative call
    with the translation by (-1/2,0,0), the vertex (1/10,0,0) is at
    [((1/10 + 1) - 1) + 1/2], which is not the [1/10 + 1/2] of the single
    call.  And when the stored transform is one on which [np.linalg.inv]
    raises (the zero matrix of [scene_flat]), both calls raise and
    [get_transform] returns that matrix, not the product. *)
Lemma relative_law_not_exact :
  snd (set_transform "a" (translation (-0.5) 0 0) true
         (snd (set_transform "a" (translation 1 0 0) false (scene_small true)))) ≠
  snd (set_transform "a" (translation (-0.5) 0 0 @@ translation 1 0 0) false
         (scene_small true)) ∧
  fst (get_transform "a"
         (snd (set_transform "a" eye4 true
                 (snd (set_transform "a" (translation 1 0 0) false
                         (scene_flat true)))))) ≠
  Return (eye4 @@ translation 1 0 0).
Proof.
  split.
  - intros H.
    apply (f_equal (λ w, from_option
             (λ m, from_option vx 0 (vertices m !! 1%nat)) 0
             (meshes w !! 1%positive))) in H.
    vm_compute in H. float_differ H 0.6.
  - intros H.
    apply (f_equal (λ r, match r with Return t => m00 t | Raise _ => 0 end)) in H.
    vm_compute in H. float_differ H 0.
Qed.

(** C1, at the input where it fails.  [add_object] with the translation by
    (1,0,0) as initial transform places the shape there, leaves the mesh
    where it was and stores no applied transform: the three do not hold
    one pose, [get_transform] raises, and the centroid of the mesh is not
    the centroid of the original mesh moved by the shape's transform. *)
Theorem initial_transform_not_in_sync b :
  let T := translation 1 0 0 in
  let r := add_object b "a" 1%positive (Some (of_mat4 T))
             (start {[1%positive := tetrahedron]} 0) in
  let w := snd r in
  fst r = Return tt ∧
  _objs (self w) !! "a" = Some (Entry 2%positive geom_a 1%positive) ∧
  objects w !! 2%positive =
    Some (collision_object geom_a (Tf (rotation_block T) (translation_block T))) ∧
  meshes w !! 1%positive = Some tetrahedron ∧
  _applied_transforms (self w) !! "a" = None ∧
  get_transform "a" w = (Raise (KeyError "a"), w) ∧
  centroid (vertices tetrahedron) ≠
    transform_point T (centroid (bvh_vertices geom_a)) ∧
  ¬ in_sync w "a".
Proof.
  cbn zeta.
  assert (_applied_transforms (self (snd (add_object b "a" 1%positive
            (Some (of_mat4 (translation 1 0 0)))
            (start {[1%positive := tetrahedron]} 0)))) !! "a" = None) as Hnone.
  { by rewrite add_object_applied_transforms. }
  split; [destruct b; vm_compute; reflexivity|].
  split; [destruct b; vm_compute; reflexivity|].
  split; [destruct b; vm_compute; reflexivity|].
  split; [destruct b; vm_compute; reflexivity|].
  split; [exact Hnone|].
  split; [destruct b; vm_compute; reflexivity|].
  split.
  - intros H. apply (f_equal vx) in H. vm_compute in H. float_differ H 0.25.
  - by apply add_object_not_in_sync.
Qed.

(** C3, at the input where it fails.  [add_object("a", mesh)] twice.  The
    shape of the first call (location 2) is still in the tree after the
    second.  With a binding that checks argument types the second call
    raises [ArgumentError] at [unregisterObject] and ["a"] still names the
    first object; with one that does not, the tree holds both shapes, and
    the identifier of the first geometry still resolves to ["a"]. *)
Theorem readd_leaves_first_shape b :
  let w1 := scene_a b in
  let r := add_object b "a" 1%positive None w1 in
  let w2 := snd r in
  _objs (self w1) !! "a" = Some (Entry 2%positive geom_a 1%positive) ∧
  getObjects (_manager (self w1)) = [2%positive] ∧
  2%positive ∈ getObjects (_manager (self w2)) ∧
  if b
  then fst r = Raise ArgumentError ∧
       _objs (self w2) !! "a" = Some (Entry 2%positive geom_a 1%positive) ∧
       getObjects (_manager (self w2)) = [2%positive]
  else fst r = Return tt ∧
       _objs (self w2) !! "a" =
         Some (Entry 4%positive (BVH 3%positive (vertices tetrahedron) (faces tetrahedron))
                 1%positive) ∧
       getObjects (_manager (self w2)) = [2%positive; 4%positive] ∧
       _names (self w2) !! 1%positive = Some "a".
Proof.
  destruct b; vm_compute; repeat split; apply list_elem_of_In; cbn; auto.
Qed.

Lemma set_transform_then_get_witness :
  ∃ t, get_transform "a"
         (snd (set_transform "a" (translation 1 0 0) false (scene_a true))) =
       (Return t, snd (set_transform "a" (translation 1 0 0) false (scene_a true))) ∧
       (false = false → t = translation 1 0 0) ∧
       (∀ p, false = true →
             _applied_transforms (self (scene_a true)) !! "a" = Some p →
             t = translation 1 0 0 @@ p).
Proof.
  apply (set_transform_then_get "a" (translation 1 0 0) false (scene_a true)).
  vm_compute. reflexivity.
Defined.

Lemma set_transform_LinAlgError_is_partial_witness :
  fst (set_transform "a" (translation 1 0 0) false (scene_flat true)) =
  Raise LinAlgError.
Proof.
  refine (proj1 (set_transform_LinAlgError_is_partial "a" _ _
    (translation 1 0 0) false (scene_flat true) zeros4 _ _ _ _)).
  - vm_compute. reflexivity.
  - vm_compute. reflexivity.
  - vm_compute. reflexivity.
  - vm_compute. reflexivity.
Defined.

Lemma singular_transform_is_permanent_witness :
  _applied_transforms (self (run true
      [SetTransform "a" (translation 1 0 0) false; AddObject "a" 1%positive None;
       SetTransform "a" eye4 true]
      (scene_flat true))) !! "a" = Some zeros4.
Proof.
  refine (proj1 (singular_transform_is_permanent true _ "a" zeros4
                   (scene_flat true) _ _)).
  - vm_compute. reflexivity.
  - vm_compute. reflexivity.
Defined.


Lemma relative_calls_compose_witness :
  set_transform "a" (translation 1 0 0) true (scene_lifted true) =
  set_transform "a" (translation 1 0 0 @@ translation 0 0 1) false
    (scene_lifted true).
Proof.
  refine (proj1 (relative_calls_compose "a" (translation 0 0 1)
    (translation 1 0 0) (translation 0 1 0) (scene_lifted true) _)).
  vm_compute. reflexivity.
Defined.

Lemma registered_shape_in_tree_witness :
  2%positive ∈ getObjects (_manager (self
    (run true [AddObject "a" 1%positive None] (start {[1%positive := tetrahedron]} 0)))) ∧
  ∃ c, objects (run true [AddObject "a" 1%positive None]
                  (start {[1%positive := tetrahedron]} 0)) !! 2%positive = Some c ∧
       collisionGeometry c = geom_a.
Proof.
  apply (registered_shape_in_tree true {[1%positive := tetrahedron]} 0
           [AddObject "a" 1%positive None] "a" (Entry 2%positive geom_a 1%positive)).
  vm_compute. reflexivity.
Defined.

Lemma registered_entry_is_final_witness :
  _objs (self (run true
      [AddObject "a" 1%positive (Some (of_mat4 (translation 1 0 0)));
       SetTransform "a" (translation 0 1 0) false]
      (scene_a true))) !! "a" = Some (Entry 2%positive geom_a 1%positive).
Proof.
  refine (proj1 (registered_entry_is_final _ (scene_a true) "a" _ _)).
  vm_compute. reflexivity.
Defined.

Lemma set_transform_leaves_others_witness :
  meshes (snd (set_transform "a" (translation 1 0 0) false (scene_ab true)))
    !! 2%positive =
  meshes (scene_ab true) !! 2%positive.
Proof.
  refine (proj1 (proj2 (proj2 (set_transform_leaves_others "a" "b"
    (Entry 2%positive geom_a 1%positive)
    (Entry 4%positive (BVH 3%positive (vertices tetrahedron) (faces tetrahedron))
       2%positive)
    (translation 1 0 0) false (scene_ab true) _ _ _ _ _)))).
  - vm_compute. reflexivity.
  - vm_compute. reflexivity.
  - discriminate.
  - discriminate.
  - discriminate.
Defined.

Lemma shared_mesh_moves_with_other_witness :
  get_object "b"
    (snd (set_transform "a" (translation 1 0 0) false (scene_shared true))) =
  (Return (Some (apply_transform (translation 1 0 0) tetrahedron)),
   snd (set_transform "a" (translation 1 0 0) false (scene_shared true))).
Proof.
  refine (proj1 (proj2 (shared_mesh_moves_with_other "a" "b"
    (Entry 2%positive geom_a 1%positive)
    (Entry 4%positive (BVH 3%positive (vertices tetrahedron) (faces tetrahedron))
       1%positive)
    tetrahedron (translation 1 0 0) (scene_shared true) _ _ _ _ _ _))).
  - discriminate.
  - vm_compute. reflexivity.
  - vm_compute. reflexivity.
  - reflexivity.
  - vm_compute. reflexivity.
  - vm_compute. reflexivity.
Defined.

Lemma unidirectional_pairs_witness :
  size ({[ ("a", "a", 0%Z, 1%Z) := (V3 0 0 0, V3 1 0 0);
           ("a", "a", 1%Z, 1%Z) := (V3 0 1 0, V3 1 0 0) ]}
        : gmap pair_key pair_points) = 2%nat.
Proof.
  refine (proj1 (unidirectional_pairs
    [contact_of geom_a geom_a 0 1 (V3 0 0 0) (V3 1 0 0);
     contact_of geom_a geom_a 1 1 (V3 0 1 0) (V3 1 0 0)] (scene_a true) _ _)).
  vm_compute. reflexivity.
Defined.

Lemma both_orders_raise_witness :
  ∃ e, get_collision_pairs
         [contact_of geom_a geom_a 0 1 (V3 0 0 0) (V3 1 0 0);
          contact_of geom_a geom_a 1 0 (V3 1 0 0) (V3 0 0 0)]
         true (scene_a true) = (Raise e, scene_a true) ∧
       consistency_error e.
Proof.
  apply (both_orders_raise _ (scene_a true) 0 1
           (contact_of geom_a geom_a 0 1 (V3 0 0 0) (V3 1 0 0))
           (contact_of geom_a geom_a 1 0 (V3 1 0 0) (V3 0 0 0))
           ("a", "a", 0%Z, 1%Z)).
  - lia.
  - reflexivity.
  - reflexivity.
  - vm_compute. reflexivity.
  - vm_compute. reflexivity.
Defined.

Lemma bidirectional_pairs_witness :
  (1 ≤ size ({[ ("a", "a", 0%Z, 1%Z) := (V3 0 0 0, V3 1 0 0);
                ("a", "a", 1%Z, 0%Z) := (V3 1 0 0, V3 0 0 0) ]}
             : gmap pair_key pair_points) ≤ 2)%nat.
Proof.
  refine (proj1 (bidirectional_pairs
    [contact_of geom_a geom_a 0 1 (V3 0 0 0) (V3 1 0 0)] (scene_a true) _ _)).
  vm_compute. reflexivity.
Defined.

Lemma contact_of_registered_is_named_witness :
  get_collision_pairs [contact_of geom_a geom_a 0 1 (V3 0 0 0) (V3 1 0 0)] false
    (run true [AddObject "a" 1%positive None] (start {[1%positive := tetrahedron]} 0)) =
  (Return {[ ("a", "a", 0%Z, 1%Z) := (V3 0 0 0, V3 1 0 0) ]},
   run true [AddObject "a" 1%positive None] (start {[1%positive := tetrahedron]} 0)).
Proof.
  apply (contact_of_registered_is_named true {[1%positive := tetrahedron]} 0
    [AddObject "a" 1%positive None] "a" "a"
    (Entry 2%positive geom_a 1%positive) (Entry 2%positive geom_a 1%positive)
    (contact_of geom_a geom_a 0 1 (V3 0 0 0) (V3 1 0 0))).
  - vm_compute. reflexivity.
  - vm_compute. reflexivity.
  - reflexivity.
  - reflexivity.
Defined.

Lemma visualize_contacts_faces_witness :
  ray_origins
    (View {[ "a" := [0; 1]%Z ]}
       [V3 0 0 0; V3 1 0 0; V3 0 1 0; V3 1 0 0]
       [V3 0 0 0; V3 0 1 0] [V3 0 0 1; V3 0 0 1]) =
  pos <$> [contact_of geom_a geom_a 0 1 (V3 0 0 0) (V3 1 0 0);
           contact_of geom_a geom_a 1 0 (V3 0 1 0) (V3 1 0 0)].
Proof.
  refine (proj1 (proj2 (proj2 (proj2 (visualize_contacts_faces
    [contact_of geom_a geom_a 0 1 (V3 0 0 0) (V3 1 0 0);
     contact_of geom_a geom_a 1 0 (V3 0 1 0) (V3 1 0 0)]
    (scene_a true) _ _))))).
  vm_compute. reflexivity.
Defined.

Lemma add_object_then_get_object_witness :
  get_object "a" (scene_a true) = (Return (Some tetrahedron), scene_a true).
Proof.
  refine (proj1 (add_object_then_get_object true "a" 1%positive None
            (start {[1%positive := tetrahedron]} 0) tetrahedron _ _)).
  - vm_compute. reflexivity.
  - vm_compute. reflexivity.
Defined.
